(** * cfggen: a shallow embedding of the template resolver

    The development follows [cfggen/__init__.py].  Python values are an
    inductive type, the resolution state is threaded through a small
    state-and-exception monad, and the recursion of [_resolve] through
    [$ref] is bounded by a fuel argument that plays the role of the
    interpreter's recursion limit. *)

From Stdlib Require Import ZArith String Ascii List Floats.PrimFloat.
From stdpp Require Import gmap strings list fin_maps.

Local Open Scope string_scope.
Local Open Scope list_scope.
Local Open Scope Z_scope.
#[local] Set Warnings "-clear-no-such-hyp".

(** ** Python values *)

(** The trees a template is made of.  [VDict] is an insertion-ordered
    dictionary with string keys; a well-formed one has pairwise distinct
    keys (see [wf_value]).  Strings are byte strings, so iterating one
    yields its bytes, which are its characters for ASCII text. *)
#[warnings="-register-all"]
Inductive value : Type :=
| VNone
| VBool (b : bool)
| VInt (n : Z)
| VFloat (f : float)
| VStr (s : string)
| VList (items : list value)
| VTuple (items : list value)
| VDict (kvs : list (string * value)).

(** Exceptions.  The [Exception(...)] instances raised by the module are
    kept apart by the statement that raises them; Python's own errors keep
    their class. *)
Inductive error : Type :=
| AssertionError
| KeyError (key : string)
| IndexError
| TypeError
| ValueError
| RefCycle (key : string)        (* "Ref cycle detected: {}".format(key) *)
| InvalidRange                   (* "Invalid argument for range" *)
| InvalidProduct                 (* "Invalid argument of product" *)
| UnknownType (constructor : value)  (* f"Unknown type {constructor}" *)
| InvalidEnvParameter            (* "Invalid $env parameter, ..." *)
| EnvKeyNotFound (key : value).  (* f"Key {key} not found in environment ..." *)



(** ** Dictionaries (insertion ordered) *)

Abbreviation entries := (list (string * value)).

Fixpoint dict_get (d : entries) (k : string) : option value :=
  match d with
  | [] => None
  | (k', v) :: rest => if String.eqb k' k then Some v else dict_get rest k
  end.

(** [d[k] = v]: overwrite in place when the key exists, append otherwise. *)
Fixpoint dict_set (k : string) (v : value) (d : entries) : entries :=
  match d with
  | [] => [(k, v)]
  | (k', v') :: rest =>
      if String.eqb k' k then (k', v) :: rest else (k', v') :: dict_set k v rest
  end.

(** [dict(pairs)] and dictionary comprehensions insert the pairs in order. *)
Definition dict_of_items (items : entries) : entries :=
  fold_left (fun d kv => dict_set (fst kv) (snd kv) d) items [].

(** [base.update(other)] *)
Definition dict_update (base other : entries) : entries :=
  fold_left (fun d kv => dict_set (fst kv) (snd kv) d) other base.

Definition dict_keys (d : entries) : list string := map fst d.
Definition dict_values (d : entries) : list value := map snd d.

(** ** Type tests *)

Inductive pytype : Type := TIterable | TList | TTuple.

Definition isinstance (v : value) (t : pytype) : bool :=
  match t, v with
  | TList, VList _ => true
  | TTuple, VTuple _ => true
  | TIterable, (VStr _ | VList _ | VTuple _ | VDict _) => true
  | _, _ => false
  end.

Definition _check_type_all (iterable : list value) (type : pytype) : bool :=
  forallb (fun item => isinstance item type) iterable.

Definition _is_list_like (item : value) : bool :=
  isinstance item TList || isinstance item TTuple.

Definition is_None (v : value) : bool :=
  match v with VNone => true | _ => false end.

(** Iterating a value: the characters of a string, the elements of a
    sequence, the keys of a dictionary; [None] when it is not iterable. *)
Fixpoint chars (s : string) : list value :=
  match s with
  | EmptyString => []
  | String c rest => VStr (String c EmptyString) :: chars rest
  end.

Definition py_iter (v : value) : option (list value) :=
  match v with
  | VStr s => Some (chars s)
  | VList l | VTuple l => Some l
  | VDict d => Some (map VStr (dict_keys d))
  | _ => None
  end.

(** [hash(v)] succeeds on scalars and on tuples of hashable values. *)
Fixpoint hashable (v : value) : bool :=
  match v with
  | VList _ | VDict _ => false
  | VTuple l => forallb hashable l
  | _ => true
  end.

(** [type(like)(items)] for a list or a tuple [like]. *)
Definition same_kind (like : value) (items : list value) : value :=
  match like with
  | VTuple _ => VTuple items
  | _ => VList items
  end.

(** ** Builtins used by the operators *)

(** [__index__]: integers and booleans (a bool is an int in Python). *)
Definition as_index (v : value) : option Z :=
  match v with
  | VInt n => Some n
  | VBool b => Some (if b then 1 else 0)
  | _ => None
  end.

(** [list(range(start, stop, step))] for a non-zero step. *)
Definition py_range (start stop step : Z) : list Z :=
  if 0 <? step then
    map (fun i => start + Z.of_nat i * step)
        (seq 0 (Z.to_nat ((stop - start + step - 1) / step)))
  else if step <? 0 then
    map (fun i => start + Z.of_nat i * step)
        (seq 0 (Z.to_nat ((start - stop - step - 1) / (- step))))
  else [].

(** [itertools.product] applied to the unpacked factors: the first factor is the outermost loop,
    so the last one varies fastest. *)
Fixpoint itertools_product {A : Type} (factors : list (list A)) : list (list A) :=
  match factors with
  | [] => [[]]
  | l :: rest =>
      flat_map (fun x => map (cons x) (itertools_product rest)) l
  end.

(** One round of [zip]: the next element of every iterator, or [None] as
    soon as one of them is exhausted. *)
Fixpoint heads_tails {A : Type} (ls : list (list A))
  : option (list A * list (list A)) :=
  match ls with
  | [] => Some ([], [])
  | [] :: _ => None
  | (x :: l) :: rest =>
      match heads_tails rest with
      | Some (hs, ts) => Some (x :: hs, l :: ts)
      | None => None
      end
  end.

Fixpoint zip_from {A : Type} (first : list A) (others : list (list A))
  : list (list A) :=
  match first with
  | [] => []
  | x :: first' =>
      match heads_tails others with
      | Some (hs, ts) => (x :: hs) :: zip_from first' ts
      | None => []
      end
  end.

(** [zip] applied to the unpacked iterables; with none of them it is empty. *)
Definition py_zip {A : Type} (iterables : list (list A)) : list (list A) :=
  match iterables with
  | [] => []
  | first :: others => zip_from first others
  end.

(** The elements of a list or tuple. *)
Definition seq_items (v : value) : list value :=
  match v with
  | VList l | VTuple l => l
  | _ => []
  end.

(** ** Resolution state and the monad of the resolver *)

(** [_State]: the four fields of the named tuple.  [trace] is ghost state
    that is not in the source: it records, in order, each key for which
    [_resolve_ref] ran the resolution of the toplevel entry (line 28). *)
Record State : Type := mkState {
  toplevel : value;
  computed : gmap string value;
  resolving : gset string;
  environment : gmap string string;
  trace : list string
}.

Definition set_computed (f : gmap string value -> gmap string value) (st : State) : State :=
  mkState (toplevel st) (f (computed st)) (resolving st) (environment st) (trace st).
Definition set_resolving (f : gset string -> gset string) (st : State) : State :=
  mkState (toplevel st) (computed st) (f (resolving st)) (environment st) (trace st).
Definition log_resolution (key : string) (st : State) : State :=
  mkState (toplevel st) (computed st) (resolving st) (environment st) (trace st ++ [key]).

(** A call returns a value and the new state, raises, or exceeds the
    recursion bound. *)
Inductive outcome (A : Type) : Type :=
| Ok (a : A)
| Raise (e : error)
| OutOfFuel.
Arguments Ok {A} a.
Arguments Raise {A} e.
Arguments OutOfFuel {A}.

Definition M (A : Type) : Type := State -> outcome (A * State).

Definition ret {A : Type} (a : A) : M A := fun st => Ok (a, st).
Definition raise {A : Type} (e : error) : M A := fun _ => Raise e.
Definition bind {A B : Type} (c : M A) (k : A -> M B) : M B :=
  fun st =>
    match c st with
    | Ok (a, st') => k a st'
    | Raise e => Raise e
    | OutOfFuel => OutOfFuel
    end.
Definition get_state : M State := fun st => Ok (st, st).
Definition modify (f : State -> State) : M unit := fun st => Ok (tt, f st).
Definition assert (b : bool) : M unit :=
  if b then ret tt else raise AssertionError.
Definition lift {A : Type} (o : option A) (e : error) : M A :=
  match o with Some a => ret a | None => raise e end.

Declare Scope resolver_scope.
Delimit Scope resolver_scope with resolver.
Notation "x <- c ;; k" := (bind c (fun x => k))
  (at level 100, c at next level, right associativity) : resolver_scope.
Notation "c ;;; k" := (bind c (fun _ => k))
  (at level 100, right associativity) : resolver_scope.
Local Open Scope resolver_scope.

Fixpoint mapM {A B : Type} (f : A -> M B) (l : list A) : M (list B) :=
  match l with
  | [] => ret []
  | x :: rest =>
      y <- f x ;;
      ys <- mapM f rest ;;
      ret (y :: ys)
  end.

(** ** The operators *)

Inductive operator : Type := OpRef | OpRange | OpConcat | OpProduct | OpZip | OpEnv.

Definition OPS_SWITCH (key : string) : option operator :=
  if String.eqb key "$ref" then Some OpRef
  else if String.eqb key "$range" then Some OpRange
  else if String.eqb key "$+" then Some OpConcat
  else if String.eqb key "$product" then Some OpProduct
  else if String.eqb key "$zip" then Some OpZip
  else if String.eqb key "$env" then Some OpEnv
  else None.

Inductive constructor : Type := CStr | CInt | CFloat | CBool.

Definition ENV_CONSTRUCTORS (name : string) : option constructor :=
  if String.eqb name "str" then Some CStr
  else if String.eqb name "int" then Some CInt
  else if String.eqb name "float" then Some CFloat
  else if String.eqb name "bool" then Some CBool
  else None.

Section Resolver.

(** The builtins [int] and [float] applied to a string are parameters of
    the development; [None] stands for their [ValueError]. *)
Variable py_int : string -> option Z.
Variable py_float : string -> option float.

(** [ENV_CONSTRUCTORS[constructor](value)] *)
Definition construct (c : constructor) (raw : string) : M value :=
  match c with
  | CStr => ret (VStr raw)
  | CInt => n <- lift (py_int raw) ValueError ;; ret (VInt n)
  | CFloat => f <- lift (py_float raw) ValueError ;; ret (VFloat f)
  | CBool => ret (VBool (negb (String.eqb raw "")))
  end.

(** [state.toplevel[key]] for a string key. *)
Definition toplevel_getitem (tl : value) (key : string) : M value :=
  match tl with
  | VDict d => lift (dict_get d key) (KeyError key)
  | _ => raise TypeError
  end.

Definition _resolve_ref (rec : value -> M value) (key : value) : M value :=
  match key with
  | VStr key =>
      st <- get_state ;;
      let cached := default VNone (computed st !! key) in
      if is_None cached then
        if decide (key ∈ resolving st) then raise (RefCycle key)
        else
          modify (set_resolving (fun s => {[key]} ∪ s)) ;;;
          entry <- toplevel_getitem (toplevel st) key ;;
          modify (log_resolution key) ;;;
          v <- rec entry ;;
          st' <- get_state ;;
          (if decide (key ∈ resolving st')
           then modify (set_resolving (fun s => s ∖ {[key]}))
           else raise (KeyError key)) ;;;
          modify (set_computed (fun c => <[key := v]> c)) ;;;
          ret v
      else ret cached
  | _ => raise AssertionError
  end.

Definition _resolve_range (args : value) : M value :=
  match as_index args with
  | Some n => ret (VList (map VInt (py_range 0 n 1)))
  | None =>
      if _is_list_like args
         && (2 <=? length (seq_items args))%nat
         && (length (seq_items args) <=? 3)%nat
      then
        match map as_index (seq_items args) with
        | [Some start; Some stop] =>
            ret (VList (map VInt (py_range start stop 1)))
        | [Some start; Some stop; Some step] =>
            if step =? 0 then raise ValueError
            else ret (VList (map VInt (py_range start stop step)))
        | _ => raise TypeError
        end
      else raise InvalidRange
  end.

Definition _map_list_like (rec : value -> M value) (iterable : value) : M value :=
  assert (_is_list_like iterable) ;;;
  items <- mapM rec (seq_items iterable) ;;
  ret (same_kind iterable items).

Definition _resolve_concat (rec : value -> M value) (args : value) : M value :=
  assert (isinstance args TIterable) ;;;
  items <- _map_list_like rec args ;;
  assert (_check_type_all (seq_items items) TIterable) ;;;
  ret (same_kind items
         (flat_map (fun item => default [] (py_iter item)) (seq_items items))).

Definition _resolve_product (rec : value -> M value) (args : value) : M value :=
  args <- rec args ;;
  if _is_list_like args then
    args <- _map_list_like rec args ;;
    assert (_check_type_all (seq_items args) TList
            || _check_type_all (seq_items args) TTuple) ;;;
    ret (VList (map VTuple (itertools_product (map seq_items (seq_items args)))))
  else
    match args with
    | VDict d =>
        values <- _map_list_like rec (VTuple (dict_values d)) ;;
        assert (_check_type_all (seq_items values) TIterable) ;;;
        ret (VList
               (map (fun items => VDict (dict_of_items (combine (dict_keys d) items)))
                    (itertools_product
                       (map (fun v => default [] (py_iter v)) (seq_items values)))))
    | _ => raise InvalidProduct
    end.

Definition _resolve_zip (rec : value -> M value) (args : value) : M value :=
  assert (_is_list_like args) ;;;
  items <- mapM rec (seq_items args) ;;
  assert (_check_type_all items TList || _check_type_all items TTuple) ;;;
  ret (VList (map VTuple (py_zip (map seq_items items)))).

(** [state.environment.get(key)]: the map has string keys, so any other
    hashable key is absent and an unhashable one is a [TypeError]. *)
Definition environment_get (key : value) : M (option string) :=
  match key with
  | VStr name => st <- get_state ;; ret (environment st !! name)
  | _ => if hashable key then ret None else raise TypeError
  end.

Definition _resolve_env (args : value) : M value :=
  parsed <-
    match args with
    | VStr _ => ret (args, VNone, CStr)
    | VDict d =>
        key <- lift (dict_get d "name") (KeyError "name") ;;
        let default_ := default VNone (dict_get d "default") in
        let constructor := default (VStr "str") (dict_get d "type") in
        match constructor with
        | VStr name =>
            match ENV_CONSTRUCTORS name with
            | Some c => ret (key, default_, c)
            | None => raise (UnknownType constructor)
            end
        | _ =>
            if hashable constructor then raise (UnknownType constructor)
            else raise TypeError
        end
    | _ => raise InvalidEnvParameter
    end ;;
  let '(key, default_, constructor) := parsed in
  found <- environment_get key ;;
  match found with
  | None =>
      if negb (is_None default_) then ret default_
      else raise (EnvKeyNotFound key)
  | Some raw => construct constructor raw
  end.

Definition apply_operator (rec : value -> M value) (fn : operator) (arg : value)
  : M value :=
  match fn with
  | OpRef => _resolve_ref rec arg
  | OpRange => _resolve_range arg
  | OpConcat => _resolve_concat rec arg
  | OpProduct => _resolve_product rec arg
  | OpZip => _resolve_zip rec arg
  | OpEnv => _resolve_env arg
  end.

(** The operator of a single-key mapping whose key is registered. *)
Definition operator_node (v : value) : option (operator * value) :=
  match v with
  | VDict [(key, arg)] =>
      match OPS_SWITCH key with
      | Some fn => Some (fn, arg)
      | None => None
      end
  | _ => None
  end.

(** The body of [_resolve]; [rec] is the recursive call. *)
Definition _resolve_body (rec : value -> M value) (v : value) : M value :=
  match operator_node v with
  | Some (fn, arg) => apply_operator rec fn arg
  | None =>
      match v with
      | VList items | VTuple items =>
          resolved <- mapM rec items ;;
          ret (VList resolved)
      | VDict d =>
          resolved <- mapM (fun kv => r <- rec (snd kv) ;; ret (fst kv, r)) d ;;
          ret (VDict (dict_of_items resolved))
      | _ => ret v
      end
  end.

Fixpoint _resolve (fuel : nat) (v : value) : M value :=
  match fuel with
  | O => fun _ => OutOfFuel
  | S fuel' => _resolve_body (_resolve fuel') v
  end.

(** [environment or os.environ.copy()]: [None] and the empty mapping are
    falsy.  [os_environ] is the environment of the host process. *)
Definition truthy_environment (environment : option (gmap string string)) : bool :=
  match environment with
  | None => false
  | Some m => negb (bool_decide (m = ∅))
  end.

Definition initial_state (template : value)
    (environment : option (gmap string string))
    (os_environ : gmap string string) : State :=
  let env :=
    if truthy_environment environment
    then default ∅ environment else os_environ in
  mkState template ∅ ∅ env [].

(** [build_template], with the final state kept for the ghost trace. *)
Definition run_template (fuel : nat) (template : value)
    (environment : option (gmap string string))
    (os_environ : gmap string string) : outcome (value * State) :=
  _resolve fuel template (initial_state template environment os_environ).

Definition build_template (fuel : nat) (template : value)
    (environment : option (gmap string string))
    (os_environ : gmap string string) : outcome value :=
  match run_template fuel template environment os_environ with
  | Ok (v, _) => Ok v
  | Raise e => Raise e
  | OutOfFuel => OutOfFuel
  end.

End Resolver.

(** ** Sample builtins for closed examples

    [decimal_int] reads an optional sign followed by decimal digits, the
    part of [int] that the examples need; [no_float] rejects every string
    and is only used where no [float] conversion takes place. *)

Definition digit_of (c : ascii) : option Z :=
  let n := Z.of_nat (nat_of_ascii c) in
  if (48 <=? n) && (n <=? 57) then Some (n - 48) else None.

Fixpoint decimal_digits (s : string) (acc : Z) : option Z :=
  match s with
  | EmptyString => Some acc
  | String c rest =>
      match digit_of c with
      | Some d => decimal_digits rest (10 * acc + d)
      | None => None
      end
  end.

Definition decimal_int (s : string) : option Z :=
  match s with
  | EmptyString => None
  | String "-" (String c rest) => option_map Z.opp (decimal_digits (String c rest) 0)
  | String "+" (String c rest) => decimal_digits (String c rest) 0
  | _ => decimal_digits s 0
  end.

Definition no_float (s : string) : option float := None.

(** A reference node [{"$ref": key}] and an operator node in general. *)
Definition ref_node (key : string) : value := VDict [("$ref", VStr key)].
Definition op_node (name : string) (arg : value) : value := VDict [(name, arg)].

(** ** Merging templates

    [merge_templates] mutates a dictionary that its caller still holds, so
    the toplevel dictionaries live in a store of objects: [templates] is a
    list of references into it.  The values below the top level are never
    mutated and stay plain trees. *)

Abbreviation location := nat.

(** [h !! base].update([h !! t]) on the object at [base]. *)
Definition update_in_place (base t : location) (h : gmap location entries)
  : gmap location entries :=
  match h !! base, h !! t with
  | Some b, Some o => <[base := dict_update b o]> h
  | _, _ => h
  end.

Section MergeTemplates.

Variable py_int : string -> option Z.
Variable py_float : string -> option float.

Definition merge_templates (fuel : nat) (templates : list location)
    (environment : option (gmap string string))
    (os_environ : gmap string string) (h : gmap location entries)
  : outcome value * gmap location entries :=
  match templates with
  | [] => (Raise IndexError, h)
  | base_template :: rest =>
      let h' := fold_left (fun h t => update_in_place base_template t h) rest h in
      match h' !! base_template with
      | Some d =>
          (build_template py_int py_float fuel (VDict d) environment os_environ, h')
      | None => (Raise TypeError, h')
      end
  end.

End MergeTemplates.

(** ** Vocabulary of the statements *)

(** The [type] field of an [$env] mapping, ["str"] when it is missing. *)
Definition env_type (d : entries) : value :=
  default (VStr "str") (dict_get d "type").

(** The local variable [default]: [args.get("default")]. *)
Definition env_default (d : entries) : value :=
  default VNone (dict_get d "default").

(** [key] has no usable cache entry: [state.computed.get(key)] is [None]. *)
Definition uncached (st : State) (key : string) : Prop :=
  is_None (default VNone (computed st !! key)) = true.

(** No key that is being resolved has a usable cache entry. *)
Definition in_progress_uncached (st : State) : Prop :=
  forall k, k ∈ resolving st -> uncached st k.

(** What a completed call leaves as it found it: the toplevel mapping,
    the environment and the resolving set, and the fact that no key being
    resolved has a usable cache entry. *)
Definition frame (st st' : State) : Prop :=
  toplevel st' = toplevel st
  /\ environment st' = environment st
  /\ resolving st' = resolving st
  /\ (in_progress_uncached st -> in_progress_uncached st').

(** Every completed run of [c] relates the state before to the state
    after by [R]. *)
Definition preserves {A : Type} (R : State -> State -> Prop) (c : M A) : Prop :=
  forall st a st', c st = Ok (a, st') -> R st st'.

(** The state in which [_resolve_ref] runs the resolution of the entry. *)
Definition enter (key : string) (st : State) : State :=
  log_resolution key (set_resolving (fun s => {[key]} ∪ s) st).

(** The state in which [_resolve_ref] returns after that resolution. *)
Definition leave (key : string) (v : value) (st : State) : State :=
  set_computed (fun c => <[key := v]> c)
    (set_resolving (fun s => s ∖ {[key]}) st).

(** [key] has a cache entry that [_resolve_ref] returns: one that is set
    and is not [None]. *)
Definition usable (st : State) (key : string) : Prop :=
  is_None (default VNone (computed st !! key)) = false.

(** How many times the entry of [key] has been resolved by [_resolve_ref]. *)
Definition resolutions (st : State) (key : string) : nat :=
  count_occ String.string_dec (trace st) key.

(** Usable cache entries stay as they are and their keys are not resolved
    again. *)
Definition memoized (st st' : State) : Prop :=
  forall key, usable st key ->
    computed st' !! key = computed st !! key
    /\ resolutions st' key = resolutions st key.

(** The keys being resolved are not resolved again, and get no usable
    cache entry, while a call made during their resolution completes. *)
Definition quiet (st st' : State) : Prop :=
  resolving st' = resolving st
  /\ forall k, k ∈ resolving st -> uncached st k ->
       uncached st' k /\ resolutions st' k = resolutions st k.

(** The toplevel entry of [key], [state.toplevel[key]], when there is
    one. *)
Definition entry_of (st : State) (key : string) : option value :=
  match toplevel st with
  | VDict d => dict_get d key
  | _ => None
  end.

(** A node that can only resolve to null in [st]: null itself, or a
    reference to a key that has no usable cache entry and whose toplevel
    entry is again such a node. *)
Inductive null_chain (st : State) : value -> Prop :=
| null_chain_none : null_chain st VNone
| null_chain_ref (key : string) (entry : value) :
    entry_of st key = Some entry ->
    uncached st key ->
    null_chain st entry ->
    null_chain st (ref_node key).

(** What a completed call does to the cache entry and to the number of
    resolutions of each key.  A key that has a usable entry, or that is
    being resolved, keeps both.  Any other key keeps both, or has been
    resolved to null, which is stored and leaves the key a null chain, or
    has been resolved exactly once to a value that is not null and is
    stored.  Null chains stay null chains. *)
Definition resolved_once (st st' : State) : Prop :=
  toplevel st' = toplevel st
  /\ resolving st' = resolving st
  /\ (forall v, null_chain st v -> null_chain st' v)
  /\ forall key,
       (usable st key \/ key ∈ resolving st ->
          computed st' !! key = computed st !! key
          /\ resolutions st' key = resolutions st key)
       /\ (uncached st key -> (key ∉ resolving st) ->
             (computed st' !! key = computed st !! key
              /\ resolutions st' key = resolutions st key)
             \/ (computed st' !! key = Some VNone
                 /\ null_chain st' (ref_node key))
             \/ (usable st' key
                 /\ resolutions st' key = S (resolutions st key))).

(** The keys of the toplevel mapping; none when the template is not a
    mapping. *)
Definition toplevel_keys (st : State) : list string :=
  match toplevel st with
  | VDict d => dict_keys d
  | _ => []
  end.

(** How the cache and the trace of resolutions evolve over a completed
    call: the toplevel mapping is the same, no cache entry is lost, the
    trace is extended, every new cache entry belongs to a key resolved by
    then, and every key resolved during the call is a toplevel key that is
    cached when the call returns. *)
Definition bookkeeping (st st' : State) : Prop :=
  toplevel st' = toplevel st
  /\ (forall k, is_Some (computed st !! k) -> is_Some (computed st' !! k))
  /\ (exists suffix, trace st' = trace st ++ suffix)
  /\ (forall k, is_Some (computed st' !! k) ->
        is_Some (computed st !! k) \/ k ∈ trace st')
  /\ (forall k, k ∈ trace st' ->
        k ∈ trace st \/ (is_Some (computed st' !! k) /\ k ∈ toplevel_keys st)).

(** [c2] finishes as [c1] does wherever [c1] finishes within its bound. *)
Definition below {A : Type} (c1 c2 : M A) : Prop :=
  forall st, c1 st <> OutOfFuel -> c2 st = c1 st.


(** The length of the shortest of [first] and [others]. *)
Definition shortest {A : Type} (first : list A) (others : list (list A)) : nat :=
  fold_right (fun l n => Nat.min (length l) n) (length first) others.

(** All the items are lists, or all of them are tuples: the assertion of
    [_resolve_zip]. *)
Definition same_sequence_kind (items : list value) : bool :=
  _check_type_all items TList || _check_type_all items TTuple.

(** No mapping of the tree is an operator node. *)
Fixpoint operator_free (v : value) : bool :=
  match v with
  | VList l | VTuple l => forallb operator_free l
  | VDict d =>
      match operator_node v with
      | Some _ => false
      | None => forallb (fun kv => operator_free (snd kv)) d
      end
  | _ => true
  end.

(** Every dictionary of the tree has pairwise distinct keys, as a Python
    dictionary does. *)
Fixpoint wf_value (v : value) : bool :=
  match v with
  | VList l | VTuple l => forallb wf_value l
  | VDict d =>
      bool_decide (NoDup (dict_keys d))
      && forallb (fun kv => wf_value (snd kv)) d
  | _ => true
  end.

(** The tree with every tuple replaced by the list of its elements. *)
Fixpoint listify (v : value) : value :=
  match v with
  | VList l | VTuple l => VList (map listify l)
  | VDict d => VDict (map (fun kv => (fst kv, listify (snd kv))) d)
  | _ => v
  end.

(** No sequence of the tree is a tuple. *)
Fixpoint tuple_free (v : value) : bool :=
  match v with
  | VTuple _ => false
  | VList l => forallb tuple_free l
  | VDict d => forallb (fun kv => tuple_free (snd kv)) d
  | _ => true
  end.

(** Nesting depth, the recursion depth [_resolve] needs on the tree. *)
Fixpoint depth (v : value) : nat :=
  match v with
  | VList l | VTuple l => S (list_max (map depth l))
  | VDict d => S (list_max (map (fun kv => depth (snd kv)) d))
  | _ => 1
  end.

(** The value of a finished run. *)
Definition result_of (o : outcome (value * State)) : outcome value :=
  match o with
  | Ok (v, _) => Ok v
  | Raise e => Raise e
  | OutOfFuel => OutOfFuel
  end.

(** The state a finished run ends in. *)
Definition state_of (o : outcome (value * State)) (otherwise : State) : State :=
  match o with
  | Ok (_, st) => st
  | _ => otherwise
  end.

(** The keys resolved by [_resolve_ref] during a finished run, in order. *)
Definition trace_of (o : outcome (value * State)) : list string :=
  match o with
  | Ok (_, st) => trace st
  | _ => []
  end.

(** The cache entry of [key] after a finished run. *)
Definition cache_of (o : outcome (value * State)) (key : string) : option value :=
  match o with
  | Ok (_, st) => computed st !! key
  | _ => None
  end.

(** ** Templates and states of the examples *)

(** The state of [test_env_constructor]: [FOO] is ["123"]. *)
Definition foo_state (template : value) : State :=
  initial_state template (Some {["FOO" := "123"]}) ∅.

(** The initial state of a build with no environment argument in a host
    process without variables. *)
Definition empty_state (template : value) : State :=
  initial_state template None ∅.

(** [{"$zip": [[1], {"$+": ([2],)}]}]: the first input resolves to the
    list [[1]], the second to the tuple [(2,)]. *)
Definition zip_mixed_template : value :=
  op_node "$zip" (VList [VList [VInt 1]; op_node "$+" (VTuple [VList [VInt 2]])]).

(** The store of [test_merge_templates]: object 0 is [inputs_template],
    object 1 is [small_machines_template]. *)
Definition inputs_template : entries :=
  [("inputs", VList [VInt 1; VInt 2]);
   ("experiments",
    op_node "$product"
      (VDict [("inputs", ref_node "inputs"); ("machines", ref_node "machines")]))].

Definition small_machines_template : entries :=
  [("machines", VList [VDict [("cpus", VInt 4)]])].

Definition test_store : gmap location entries :=
  {[ 0%nat := inputs_template; 1%nat := small_machines_template ]}.

(** [{a: [{ref: b}, {ref: b}], b: {ref: c}, c: 5}] *)
Definition memo_template : value :=
  VDict [("a", VList [ref_node "b"; ref_node "b"]);
         ("b", ref_node "c");
         ("c", VInt 5)].

(** [{a: [{ref: b}, {ref: b}], b: null}] *)
Definition null_entry_template : value :=
  VDict [("a", VList [ref_node "b"; ref_node "b"]); ("b", VNone)].

(** [{"a": (1, 2)}] *)
Definition tuple_template : value :=
  VDict [("a", VTuple [VInt 1; VInt 2])].

(** The template of [test_config_zip]. *)
Definition zip_product_argument : value :=
  VDict [("a", op_node "$zip"
                 (VList [VList [VStr "a"; VStr "b"; VStr "c"];
                         VList [VInt 1; VInt 2; VInt 3]]));
         ("b", VList [VStr "a"; VStr "b"])].

Definition zip_product_template : value :=
  op_node "$product" zip_product_argument.

(** [{"$product": {"a": [{"$env": {"name": "NOPE", "default":
    {"$range": 2}}}], "b": [1]}}]: the only element of the sequence of [a]
    is an [$env] node whose default is an operator node. *)
Definition default_product_argument : value :=
  VDict [("a", VList [op_node "$env"
                        (VDict [("name", VStr "NOPE");
                                ("default", op_node "$range" (VInt 2))])]);
         ("b", VList [VInt 1])].

Definition default_product_template : value :=
  op_node "$product" default_product_argument.

(** What [test_config_zip] asserts the build to equal. *)
Definition zip_product_expected : value :=
  VList [VDict [("a", VTuple [VStr "a"; VInt 1]); ("b", VStr "a")];
         VDict [("a", VTuple [VStr "a"; VInt 1]); ("b", VStr "b")];
         VDict [("a", VTuple [VStr "b"; VInt 2]); ("b", VStr "a")];
         VDict [("a", VTuple [VStr "b"; VInt 2]); ("b", VStr "b")];
         VDict [("a", VTuple [VStr "c"; VInt 3]); ("b", VStr "a")];
         VDict [("a", VTuple [VStr "c"; VInt 3]); ("b", VStr "b")]].

(** A state whose environment holds [FOO] with the raw value ["false"]. *)
Definition false_state : State :=
  initial_state VNone (Some {["FOO" := "false"]}) ∅.

(** A store of two templates, the second of which redefines the key [b]
    of the first and adds the key [c]. *)
Definition override_store : gmap location entries :=
  {[ 0%nat := [("a", VInt 1); ("b", VInt 2)];
     1%nat := [("b", VInt 3); ("c", VInt 4)] ]}.

(** A template with one plain entry. *)
Definition plain_template : value := VDict [("a", VInt 1)].

(** * Properties *)

(** ** Basic facts about the monad *)

Lemma bind_Ok_inv {A B : Type} (c : M A) (k : A -> M B) st b st2 :
  bind c k st = Ok (b, st2) ->
  exists a st1, c st = Ok (a, st1) /\ k a st1 = Ok (b, st2).
Proof.
  unfold bind. destruct (c st) as [[a st1]| |]; try discriminate.
  intros H. now exists a, st1.
Qed.

Lemma assert_true {B : Type} (k : unit -> M B) st :
  bind (assert true) k st = k tt st.
Proof. reflexivity. Qed.

(** A function that returns its argument's image without touching the
    state maps over a list in the same way. *)
Lemma mapM_pure {A B : Type} (f : A -> M B) (g : A -> B) l st :
  (forall x, In x l -> f x st = Ok (g x, st)) ->
  mapM f l st = Ok (map g l, st).
Proof.
  induction l as [|x l IH]; intros H; simpl; [reflexivity|].
  unfold bind. rewrite (H x (or_introl eq_refl)).
  rewrite IH by (intros y Hy; apply H; now right). reflexivity.
Qed.

Lemma mapM_length {A B : Type} (f : A -> M B) l st r st' :
  mapM f l st = Ok (r, st') -> length r = length l.
Proof.
  revert st r. induction l as [|x l IH]; intros st r H; simpl in *.
  - unfold ret in H. now injection H as <- <-.
  - unfold bind in H. destruct (f x st) as [[y sty]| |]; try discriminate.
    destruct (mapM f l sty) as [[ys stys]| |] eqn:E; try discriminate.
    unfold ret in H. injection H as <- <-. simpl. f_equal. eauto.
Qed.

(** ** The environment operator *)

Section EnvOperator.

Variable py_int : string -> option Z.
Variable py_float : string -> option float.

Abbreviation resolve_env := (_resolve_env py_int py_float).
Abbreviation resolve := (_resolve py_int py_float).
Abbreviation convert := (construct py_int py_float).

Lemma resolve_env_dict d name ty c st :
  dict_get d "name" = Some (VStr name) ->
  env_type d = VStr ty ->
  ENV_CONSTRUCTORS ty = Some c ->
  resolve_env (VDict d) st =
    match environment st !! name with
    | Some raw => convert c raw st
    | None =>
        if is_None (env_default d) then Raise (EnvKeyNotFound (VStr name))
        else Ok (env_default d, st)
    end.
Proof.
  intros Hname Hty Hc. unfold _resolve_env, env_type, env_default in *.
  unfold bind at 1. unfold bind at 1. rewrite Hname. cbn [lift ret].
  rewrite Hty, Hc. cbv [ret bind environment_get get_state].
  destruct (environment st !! name) as [raw|]; [reflexivity|].
  now destruct (default VNone (dict_get d "default")).
Qed.

(** C7. Environment lookup and fallback.  For an [$env] mapping with a
    string [name] and a known [type]: when the name is absent from the
    environment the operator returns the default if one was supplied (a
    non-null [default]) and raises otherwise; when the name is present,
    also with an empty value, the constructor of [type] is applied to the
    raw string and the default plays no part.  A bare string behaves as
    the mapping with only [name].  An unknown [type] raises whatever the
    environment holds, so before any lookup. *)
Theorem env_lookup_and_fallback :
  (forall st d name ty c,
      dict_get d "name" = Some (VStr name) ->
      env_type d = VStr ty ->
      ENV_CONSTRUCTORS ty = Some c ->
      (environment st !! name = None -> env_default d <> VNone ->
       resolve_env (VDict d) st = Ok (env_default d, st))
      /\ (environment st !! name = None -> env_default d = VNone ->
          resolve_env (VDict d) st = Raise (EnvKeyNotFound (VStr name)))
      /\ (forall raw, environment st !! name = Some raw ->
          resolve_env (VDict d) st = convert c raw st
          /\ (forall d', dict_get d' "name" = Some (VStr name) ->
              env_type d' = VStr ty ->
              resolve_env (VDict d') st = resolve_env (VDict d) st)))
  /\ (forall st name,
        resolve_env (VStr name) st =
          match environment st !! name with
          | Some raw => Ok (VStr raw, st)
          | None => Raise (EnvKeyNotFound (VStr name))
          end)
  /\ (forall st name, environment st !! name = Some "" ->
        resolve_env (VStr name) st = Ok (VStr "", st)
        /\ resolve_env (VDict [("name", VStr name); ("type", VStr "bool")]) st
           = Ok (VBool false, st))
  /\ (forall st d key ty,
        dict_get d "name" = Some key ->
        env_type d = VStr ty ->
        ENV_CONSTRUCTORS ty = None ->
        resolve_env (VDict d) st = Raise (UnknownType (VStr ty))).
Proof.
  split; [|split; [|split]].
  - intros st d name ty c Hn Ht Hc.
    pose proof (resolve_env_dict _ _ _ _ st Hn Ht Hc) as E.
    split; [|split].
    + intros Habs Hd. rewrite E, Habs.
      destruct (env_default d); try reflexivity. now elim Hd.
    + intros Habs Hd. now rewrite E, Habs, Hd.
    + intros raw Hraw. split; [now rewrite E, Hraw|].
      intros d' Hn' Ht'.
      rewrite E, (resolve_env_dict _ _ _ _ st Hn' Ht' Hc). now rewrite Hraw.
  - intros st name. unfold _resolve_env.
    cbv [ret bind environment_get get_state].
    now destruct (environment st !! name).
  - intros st name Hraw. split.
    + unfold _resolve_env. cbv [ret bind environment_get get_state].
      now rewrite Hraw.
    + erewrite resolve_env_dict; [|reflexivity|reflexivity|reflexivity].
      now rewrite Hraw.
  - intros st d key ty Hk Ht Hc. unfold _resolve_env, env_type in *.
    unfold bind at 1. unfold bind at 1. rewrite Hk. cbn [lift ret].
    now rewrite Ht, Hc.
Qed.

Lemma resolve_env_node fuel args st :
  resolve (S fuel) (op_node "$env" args) st = resolve_env args st.
Proof. reflexivity. Qed.

(** C10. When [$env] falls back to the default (name absent, non-null
    default), the value is returned exactly as written in the template
    and the state is untouched: it is not resolved by the tree walker,
    even when it is an operator node, and the constructor of [type] is
    not applied.  A [default] that is explicitly null counts as no
    default, so the operator raises. *)
Theorem env_default_returned_as_written :
  forall fuel st d name ty c,
    dict_get d "name" = Some (VStr name) ->
    env_type d = VStr ty ->
    ENV_CONSTRUCTORS ty = Some c ->
    environment st !! name = None ->
    (forall dflt, dict_get d "default" = Some dflt -> dflt <> VNone ->
       resolve (S fuel) (op_node "$env" (VDict d)) st = Ok (dflt, st))
    /\ (forall n, dict_get d "default" = Some (op_node "$range" (VInt n)) ->
          resolve (S fuel) (op_node "$env" (VDict d)) st
            = Ok (op_node "$range" (VInt n), st)
          /\ resolve (S fuel) (op_node "$range" (VInt n)) st
            = Ok (VList (map VInt (py_range 0 n 1)), st))
    /\ (dict_get d "default" = Some VNone ->
          resolve (S fuel) (op_node "$env" (VDict d)) st
            = Raise (EnvKeyNotFound (VStr name))).
Proof.
  intros fuel st d name ty c Hn Ht Hc Habs.
  assert (E : forall dflt, dict_get d "default" = Some dflt ->
              resolve (S fuel) (op_node "$env" (VDict d)) st =
                if is_None dflt then Raise (EnvKeyNotFound (VStr name))
                else Ok (dflt, st)).
  { intros dflt Hd. rewrite resolve_env_node.
    rewrite (resolve_env_dict _ _ _ _ st Hn Ht Hc), Habs.
    unfold env_default. now rewrite Hd. }
  split; [|split].
  - intros dflt Hd Hnn. rewrite (E _ Hd). destruct dflt; try reflexivity.
    now elim Hnn.
  - intros n Hd. split; [now rewrite (E _ Hd)|reflexivity].
  - intros Hd. now rewrite (E _ Hd).
Qed.

(** C8. An explicitly supplied empty environment is not used: the
    argument is tested for truthiness, the falsy values are [None] and the
    empty mapping, and for both the state is built from the environment of
    the host process, whose variables an [$env] node then reads. *)
Theorem empty_environment_falls_back :
  forall fuel template os_environ,
    build_template py_int py_float fuel template (Some ∅) os_environ
      = build_template py_int py_float fuel template None os_environ
    /\ environment (initial_state template (Some ∅) os_environ) = os_environ
    /\ (forall e, truthy_environment e = false <-> e = None \/ e = Some ∅)
    /\ (forall e, truthy_environment e = false ->
          initial_state template e os_environ
            = mkState template ∅ ∅ os_environ [])
    /\ (forall m, m <> ∅ ->
          environment (initial_state template (Some m) os_environ) = m)
    /\ (forall name raw, os_environ !! name = Some raw ->
          build_template py_int py_float (S fuel)
            (op_node "$env" (VStr name)) (Some ∅) os_environ = Ok (VStr raw)).
Proof.
  intros fuel template os_environ.
  assert (F : truthy_environment (Some ∅) = false).
  { unfold truthy_environment. now rewrite bool_decide_eq_true_2. }
  assert (I : forall t e, truthy_environment e = false ->
              initial_state t e os_environ = mkState t ∅ ∅ os_environ []).
  { intros t e He. unfold initial_state. now rewrite He. }
  split; [|split; [|split; [|split; [|split]]]].
  - unfold build_template, run_template.
    now rewrite (I _ _ F), (I _ None eq_refl).
  - now rewrite (I _ _ F).
  - intros e. split.
    + destruct e as [m|]; [|now left]. unfold truthy_environment.
      intros Hm. right. f_equal.
      apply negb_false_iff, bool_decide_eq_true_1 in Hm. exact Hm.
    + intros [->| ->]; [reflexivity|exact F].
  - apply I.
  - intros m Hm. unfold initial_state, truthy_environment.
    now rewrite bool_decide_eq_false_2.
  - intros name raw Hraw. unfold build_template, run_template.
    rewrite resolve_env_node, (I _ _ F). unfold _resolve_env.
    cbv [ret bind environment_get get_state environment]. now rewrite Hraw.
Qed.

End EnvOperator.

(** ** Instances of the environment theorems *)

Lemma env_lookup_and_fallback_witness :
  _resolve_env decimal_int no_float
    (VDict [("name", VStr "FOO"); ("type", VStr "int"); ("default", VInt 2)])
    (foo_state VNone)
  = Ok (VInt 123, foo_state VNone)
  /\ _resolve_env decimal_int no_float
       (VDict [("name", VStr "BAR"); ("default", VInt 2)]) (foo_state VNone)
     = Ok (VInt 2, foo_state VNone).
Proof.
  destruct (env_lookup_and_fallback decimal_int no_float) as [H _].
  split.
  - destruct (H (foo_state VNone)
                [("name", VStr "FOO"); ("type", VStr "int"); ("default", VInt 2)]
                "FOO" "int" CInt eq_refl eq_refl eq_refl) as (_ & _ & H3).
    destruct (H3 "123" eq_refl) as [E _]. rewrite E. reflexivity.
  - destruct (H (foo_state VNone) [("name", VStr "BAR"); ("default", VInt 2)]
                "BAR" "str" CStr eq_refl eq_refl eq_refl) as (H1 & _).
    apply H1; [reflexivity|discriminate].
Defined.

Lemma env_default_returned_as_written_witness :
  _resolve decimal_int no_float 1
    (op_node "$env"
       (VDict [("name", VStr "BAR"); ("type", VStr "int");
               ("default", op_node "$range" (VInt 3))]))
    (foo_state VNone)
  = Ok (op_node "$range" (VInt 3), foo_state VNone).
Proof.
  destruct (env_default_returned_as_written decimal_int no_float 0
              (foo_state VNone)
              [("name", VStr "BAR"); ("type", VStr "int");
               ("default", op_node "$range" (VInt 3))]
              "BAR" "int" CInt eq_refl eq_refl eq_refl eq_refl) as (H & _).
  apply H; [reflexivity|discriminate].
Defined.

Lemma empty_environment_falls_back_witness :
  build_template decimal_int no_float 1 (op_node "$env" (VStr "FOO"))
    (Some ∅) {["FOO" := "1"]} = Ok (VStr "1").
Proof.
  destruct (empty_environment_falls_back decimal_int no_float 0 VNone
              {["FOO" := "1"]}) as (_ & _ & _ & _ & _ & H).
  apply H. reflexivity.
Defined.

(** ** What a successful resolution leaves unchanged *)

Lemma frame_refl st : frame st st.
Proof. unfold frame. tauto. Qed.

Lemma frame_trans st1 st2 st3 : frame st1 st2 -> frame st2 st3 -> frame st1 st3.
Proof.
  unfold frame. intros (T1 & E1 & R1 & J1) (T2 & E2 & R2 & J2).
  repeat split; try congruence. tauto.
Qed.

Section Preserves.

Context {R : State -> State -> Prop}.
Hypothesis R_refl : forall st, R st st.
Hypothesis R_trans : forall st1 st2 st3, R st1 st2 -> R st2 st3 -> R st1 st3.

Lemma preserves_ret {A : Type} (a : A) : preserves R (ret a).
Proof. intros st a' st' H. unfold ret in H. injection H as _ <-. apply R_refl. Qed.

Lemma preserves_raise {A : Type} (e : error) : preserves R (@raise A e).
Proof. intros st a st' H. discriminate. Qed.

Lemma preserves_assert b : preserves R (assert b).
Proof. destruct b; [apply preserves_ret|apply preserves_raise]. Qed.

Lemma preserves_lift {A : Type} (o : option A) e : preserves R (lift o e).
Proof. destruct o; [apply preserves_ret|apply preserves_raise]. Qed.

Lemma preserves_get : preserves R get_state.
Proof. intros st a st' H. unfold get_state in H. injection H as _ <-. apply R_refl. Qed.

Lemma preserves_bind {A B : Type} (c : M A) (k : A -> M B) :
  preserves R c -> (forall a, preserves R (k a)) -> preserves R (bind c k).
Proof.
  intros Hc Hk st b st' H. apply bind_Ok_inv in H as (a & st1 & H1 & H2).
  eapply R_trans; [eapply Hc|eapply Hk]; eassumption.
Qed.

Lemma preserves_mapM {A B : Type} (f : A -> M B) (l : list A) :
  (forall x, preserves R (f x)) -> preserves R (mapM f l).
Proof.
  intros Hf. induction l as [|x l IH]; simpl.
  - apply preserves_ret.
  - apply preserves_bind; [apply Hf|]. intros y.
    apply preserves_bind; [apply IH|]. intros ys. apply preserves_ret.
Qed.

End Preserves.

Section ResolverInvariants.

Variable py_int : string -> option Z.
Variable py_float : string -> option float.

Abbreviation resolve := (_resolve py_int py_float).

(** The cache-miss path of [_resolve_ref], step by step. *)
Lemma resolve_ref_miss rec key st entry :
  uncached st key ->
  key ∉ resolving st ->
  toplevel_getitem (toplevel st) key st = Ok (entry, st) ->
  _resolve_ref rec (VStr key) st =
    match rec entry (enter key st) with
    | Ok (v, st') =>
        if decide (key ∈ resolving st') then Ok (v, leave key v st')
        else Raise (KeyError key)
    | Raise e => Raise e
    | OutOfFuel => OutOfFuel
    end.
Proof.
  intros Hu Hr He. unfold _resolve_ref, uncached in *.
  cbv [bind get_state modify]. rewrite Hu.
  destruct (decide (key ∈ resolving st)) as [|_]; [contradiction|].
  assert (Hg : toplevel_getitem (toplevel st) key
                 (set_resolving (fun s => {[key]} ∪ s) st)
               = Ok (entry, set_resolving (fun s => {[key]} ∪ s) st)).
  { unfold toplevel_getitem in *. destruct (toplevel st); try discriminate.
    unfold lift in *. destruct (dict_get kvs key); try discriminate.
    unfold ret in *. now injection He as ->. }
  simpl toplevel. rewrite Hg. fold (enter key st).
  destruct (rec entry (enter key st)) as [[v st']| |]; try reflexivity.
  destruct (decide (key ∈ resolving st')); reflexivity.
Qed.

Lemma toplevel_getitem_pure tl key st v st' :
  toplevel_getitem tl key st = Ok (v, st') ->
  st' = st /\ forall st0, toplevel_getitem tl key st0 = Ok (v, st0).
Proof.
  unfold toplevel_getitem. destruct tl; try discriminate.
  unfold lift. destruct (dict_get kvs key); try discriminate.
  unfold ret. intros H. injection H as -> ->. split; reflexivity.
Qed.

(** Every operator but [$ref] only touches the state through the
    recursive calls, so a reflexive and transitive relation between the
    states before and after a call that [_resolve_ref] maintains is
    maintained by [_resolve]. *)
Section Maintained.

Context {R : State -> State -> Prop}.
Hypothesis R_refl : forall st, R st st.
Hypothesis R_trans : forall st1 st2 st3, R st1 st2 -> R st2 st3 -> R st1 st3.

Lemma map_list_like_preserves rec v :
  (forall v, preserves R (rec v)) -> preserves R (_map_list_like rec v).
Proof.
  intros Hrec. unfold _map_list_like.
  apply (preserves_bind R_trans);
    [apply (preserves_assert R_refl)|intros _].
  apply (preserves_bind R_trans);
    [now apply (preserves_mapM R_refl R_trans)|intros items].
  apply (preserves_ret R_refl).
Qed.

Lemma apply_operator_preserves rec fn arg :
  (forall v, preserves R (rec v)) ->
  (forall key, preserves R (_resolve_ref rec key)) ->
  preserves R (apply_operator py_int py_float rec fn arg).
Proof.
  intros Hrec Href.
  pose proof (@preserves_bind R R_trans) as PB.
  pose proof (@preserves_ret R R_refl) as PR.
  pose proof (@preserves_raise R) as PE.
  pose proof (@preserves_assert R R_refl) as PA.
  pose proof (@preserves_lift R R_refl) as PL.
  pose proof (@preserves_mapM R R_refl R_trans) as PM.
  destruct fn; simpl.
  - apply Href.
  - unfold _resolve_range. destruct (as_index arg); [apply PR|].
    destruct (_ && _); [|apply PE].
    destruct (map as_index (seq_items arg)) as [|[a|] [|[b|] [|[c|] [|? ?]]]];
      try apply PE; try apply PR.
    destruct (c =? 0); [apply PE|apply PR].
  - unfold _resolve_concat. apply PB; [apply PA|intros _].
    apply PB; [now apply map_list_like_preserves|intros items].
    apply PB; [apply PA|intros _]. apply PR.
  - unfold _resolve_product. apply PB; [apply Hrec|intros args].
    destruct (_is_list_like args).
    + apply PB; [now apply map_list_like_preserves|intros args'].
      apply PB; [apply PA|intros _]. apply PR.
    + destruct args; try apply PE.
      apply PB; [now apply map_list_like_preserves|intros values].
      apply PB; [apply PA|intros _]. apply PR.
  - unfold _resolve_zip. apply PB; [apply PA|intros _].
    apply PB; [now apply PM|intros items].
    apply PB; [apply PA|intros _]. apply PR.
  - unfold _resolve_env. apply PB.
    + destruct arg; try apply PE; try apply PR.
      apply PB; [apply PL|intros key].
      destruct (default (VStr "str") (dict_get kvs "type")); try apply PE;
        try (destruct (hashable _); apply PE).
      destruct (ENV_CONSTRUCTORS s); [apply PR|apply PE].
    + intros [[key dflt] c]. apply PB.
      * unfold environment_get. destruct key; try apply PR;
          try (destruct (hashable _); [apply PR|apply PE]).
        apply PB; [apply (preserves_get R_refl)|intros st0; apply PR].
      * intros [raw|].
        -- unfold construct. destruct c; try apply PR;
             (apply PB; [apply PL|intros ?; apply PR]).
        -- destruct (negb _); [apply PR|apply PE].
Qed.

Lemma resolve_body_preserves rec v :
  (forall v, preserves R (rec v)) ->
  (forall key, preserves R (_resolve_ref rec key)) ->
  preserves R (_resolve_body py_int py_float rec v).
Proof.
  intros Hrec Href. unfold _resolve_body.
  destruct (operator_node v) as [[fn arg]|]; [now apply apply_operator_preserves|].
  destruct v; try apply (preserves_ret R_refl).
  - apply (preserves_bind R_trans);
      [now apply (preserves_mapM R_refl R_trans)|].
    intros r. apply (preserves_ret R_refl).
  - apply (preserves_bind R_trans);
      [now apply (preserves_mapM R_refl R_trans)|].
    intros r. apply (preserves_ret R_refl).
  - apply (preserves_bind R_trans).
    + apply (preserves_mapM R_refl R_trans). intros kv.
      apply (preserves_bind R_trans); [apply Hrec|].
      intros r. apply (preserves_ret R_refl).
    + intros r. apply (preserves_ret R_refl).
Qed.

Hypothesis R_ref : forall rec key,
  (forall v, preserves R (rec v)) -> preserves R (_resolve_ref rec key).

Lemma resolve_preserves fuel v : preserves R (resolve fuel v).
Proof.
  revert v. induction fuel as [|fuel IH]; intros v.
  - intros st a st' H. discriminate.
  - simpl. apply resolve_body_preserves; [exact IH|].
    intros key. now apply R_ref.
Qed.

End Maintained.

Lemma resolve_ref_frame rec key :
  (forall v, preserves frame (rec v)) ->
  preserves frame (_resolve_ref rec key).
Proof.
  intros Hrec st a st' H. destruct key; try discriminate.
  unfold _resolve_ref in H. cbv [bind get_state] in H.
  destruct (is_None (default VNone (computed st !! s))) eqn:Hu.
  2:{ unfold ret in H. injection H as _ <-. apply frame_refl. }
  destruct (decide (s ∈ resolving st)) as [|Hr]; [discriminate|].
  cbv [modify] in H. simpl toplevel in H.
  destruct (toplevel_getitem (toplevel st) s _) as [[entry st1]| |] eqn:Hg;
    try discriminate.
  apply toplevel_getitem_pure in Hg as [-> _].
  fold (enter s st) in H.
  destruct (rec entry (enter s st)) as [[v st2]| |] eqn:Hrun; try discriminate.
  destruct (decide (s ∈ resolving st2)) as [Hin|]; [|discriminate].
  unfold ret in H. injection H as <- <-.
  apply Hrec in Hrun. destruct Hrun as (T & E & Rs & J).
  unfold frame. simpl in *. repeat split; try assumption.
  - rewrite Rs. set_solver.
  - intros Jst k Hk. simpl in Hk. rewrite Rs in Hk.
    assert (k <> s) by set_solver. unfold uncached. simpl.
    rewrite lookup_insert_ne by congruence.
    apply J; [|rewrite Rs; set_solver].
    intros k' Hk'. unfold uncached. simpl.
    destruct (decide (k' = s)) as [->|]; [exact Hu|].
    apply Jst. set_solver.
Qed.

Lemma resolve_frame fuel v : preserves frame (resolve fuel v).
Proof. apply (resolve_preserves frame_refl frame_trans resolve_ref_frame). Qed.

(** ** Memoization of references *)

Lemma memoized_refl st : memoized st st.
Proof. intros key _. split; reflexivity. Qed.

Lemma memoized_trans st1 st2 st3 :
  memoized st1 st2 -> memoized st2 st3 -> memoized st1 st3.
Proof.
  intros H12 H23 key Hk. destruct (H12 key Hk) as [C12 N12].
  assert (Hk2 : usable st2 key) by (unfold usable in *; now rewrite C12).
  destruct (H23 key Hk2) as [C23 N23]. split; congruence.
Qed.

Lemma resolve_ref_hit rec key st :
  usable st key ->
  _resolve_ref rec (VStr key) st = Ok (default VNone (computed st !! key), st).
Proof.
  intros Hk. unfold _resolve_ref, usable in *. cbv [bind get_state].
  now rewrite Hk.
Qed.

Lemma resolve_ref_memoized rec key :
  (forall v, preserves memoized (rec v)) ->
  preserves memoized (_resolve_ref rec key).
Proof.
  intros Hrec st a st' H. destruct key; try discriminate.
  unfold _resolve_ref in H. cbv [bind get_state] in H.
  destruct (is_None (default VNone (computed st !! s))) eqn:Hu.
  2:{ unfold ret in H. injection H as _ <-. apply memoized_refl. }
  destruct (decide (s ∈ resolving st)) as [|Hr]; [discriminate|].
  cbv [modify] in H. simpl toplevel in H.
  destruct (toplevel_getitem (toplevel st) s _) as [[entry st1]| |] eqn:Hg;
    try discriminate.
  apply toplevel_getitem_pure in Hg as [-> _].
  fold (enter s st) in H.
  destruct (rec entry (enter s st)) as [[v st2]| |] eqn:Hrun; try discriminate.
  destruct (decide (s ∈ resolving st2)) as [Hin|]; [|discriminate].
  unfold ret in H. injection H as <- <-.
  apply Hrec in Hrun. intros key Hk.
  assert (Hne : key <> s) by (intros ->; unfold usable in Hk; congruence).
  destruct (Hrun key Hk) as [C N]. unfold resolutions in *. simpl in *.
  rewrite lookup_insert_ne by congruence. split; [exact C|].
  rewrite N, count_occ_app. simpl.
  destruct (String.string_dec s key); [congruence|lia].
Qed.

Lemma resolve_memoized fuel v : preserves memoized (resolve fuel v).
Proof.
  apply (resolve_preserves memoized_refl memoized_trans resolve_ref_memoized).
Qed.

(** ** Reference cycles *)

Lemma resolve_ref_node fuel key st :
  resolve (S fuel) (ref_node key) st = _resolve_ref (resolve fuel) (VStr key) st.
Proof. reflexivity. Qed.


(** ** References resolved once *)

Lemma quiet_refl st : quiet st st.
Proof. split; [reflexivity|]. intros k _ Hu. now split. Qed.

Lemma quiet_trans st1 st2 st3 : quiet st1 st2 -> quiet st2 st3 -> quiet st1 st3.
Proof.
  intros [R12 Q12] [R23 Q23]. split; [congruence|].
  intros k Hk Hu. destruct (Q12 k Hk Hu) as [Hu2 N12].
  rewrite <- R12 in Hk. destruct (Q23 k Hk Hu2) as [Hu3 N23].
  split; [exact Hu3|congruence].
Qed.

(** A completed cache-miss run of [_resolve_ref]: the entry is resolved in
    [enter key st] and the call returns in [leave key v] of the state in
    which that resolution ended. *)
Lemma resolve_ref_miss_inv rec key st v st' :
  uncached st key ->
  _resolve_ref rec (VStr key) st = Ok (v, st') ->
  (key ∉ resolving st)
  /\ exists entry st2,
       rec entry (enter key st) = Ok (v, st2) /\ st' = leave key v st2.
Proof.
  intros Hu H. unfold _resolve_ref, uncached in *. cbv [bind get_state] in H.
  rewrite Hu in H.
  destruct (decide (key ∈ resolving st)) as [|Hr]; [discriminate|].
  split; [exact Hr|]. cbv [modify] in H. simpl toplevel in H.
  destruct (toplevel_getitem (toplevel st) key _) as [[entry st1]| |] eqn:Hg;
    try discriminate.
  apply toplevel_getitem_pure in Hg as [-> _]. fold (enter key st) in H.
  destruct (rec entry (enter key st)) as [[v' st2]| |] eqn:Hrun; try discriminate.
  destruct (decide (key ∈ resolving st2)); [|discriminate].
  unfold ret in H. injection H as <- <-. now exists entry, st2.
Qed.

Lemma resolve_ref_quiet rec key :
  (forall v, preserves quiet (rec v)) ->
  preserves quiet (_resolve_ref rec key).
Proof.
  intros Hrec st a st' H. destruct key; try discriminate.
  destruct (is_None (default VNone (computed st !! s))) eqn:Hu.
  2:{ rewrite resolve_ref_hit in H by exact Hu. injection H as _ <-.
      apply quiet_refl. }
  apply (resolve_ref_miss_inv _ _ _ _ _ Hu) in H
    as (Hr & entry & st2 & Hrun & ->).
  apply Hrec in Hrun. destruct Hrun as [Rs Q]. split.
  - simpl in *. rewrite Rs. set_solver.
  - intros k Hk Huk. assert (Hne : k <> s) by (intros ->; contradiction).
    destruct (Q k) as [Hu2 N2].
    + simpl. set_solver.
    + exact Huk.
    + unfold uncached, resolutions in *. simpl in *.
      rewrite lookup_insert_ne by congruence. split; [exact Hu2|].
      rewrite N2, count_occ_app. simpl.
      destruct (String.string_dec s k); [congruence|lia].
Qed.

Lemma resolve_quiet fuel v : preserves quiet (resolve fuel v).
Proof. apply (resolve_preserves quiet_refl quiet_trans resolve_ref_quiet). Qed.

(** ** References resolved once, whatever encloses them *)

(** The cache-miss path again, with the entry that is resolved. *)
Lemma resolve_ref_miss_entry_of rec key st v st' :
  uncached st key ->
  _resolve_ref rec (VStr key) st = Ok (v, st') ->
  (key ∉ resolving st)
  /\ exists entry st2,
       entry_of st key = Some entry
       /\ rec entry (enter key st) = Ok (v, st2) /\ st' = leave key v st2.
Proof.
  intros Hu H. unfold _resolve_ref, uncached in *. cbv [bind get_state] in H.
  rewrite Hu in H.
  destruct (decide (key ∈ resolving st)) as [|Hr]; [discriminate|].
  split; [exact Hr|]. cbv [modify] in H. simpl toplevel in H.
  destruct (toplevel_getitem (toplevel st) key _) as [[entry st1]| |] eqn:Hg;
    try discriminate.
  assert (He : entry_of st key = Some entry).
  { unfold entry_of, toplevel_getitem, lift in *.
    destruct (toplevel st); try discriminate.
    destruct (dict_get kvs key); [|discriminate].
    unfold ret in Hg. now injection Hg as ->. }
  apply toplevel_getitem_pure in Hg as [-> _]. fold (enter key st) in H.
  destruct (rec entry (enter key st)) as [[v' st2]| |] eqn:Hrun; try discriminate.
  destruct (decide (key ∈ resolving st2)); [|discriminate].
  unfold ret in H. injection H as <- <-. now exists entry, st2.
Qed.

Lemma null_chain_mono st st' v :
  toplevel st' = toplevel st ->
  (forall k, uncached st k -> uncached st' k) ->
  null_chain st v -> null_chain st' v.
Proof.
  intros T U H. induction H as [|key entry E Hu _ IH].
  - constructor.
  - apply (null_chain_ref st' key entry); [|now apply U|exact IH].
    unfold entry_of in *. now rewrite T.
Qed.

Lemma null_chain_ref_inv st key :
  null_chain st (ref_node key) ->
  uncached st key
  /\ exists entry, entry_of st key = Some entry /\ null_chain st entry.
Proof.
  intros H. remember (ref_node key) as v eqn:Hv.
  destruct H as [|key' entry E Hu N]; unfold ref_node in Hv; [discriminate|].
  injection Hv as <-. eauto.
Qed.

(** A null chain resolves to null, in every state that has the same
    toplevel mapping and no more usable cache entries. *)
Lemma null_chain_returns_null st v :
  null_chain st v ->
  forall st1 fuel w st',
    toplevel st1 = toplevel st ->
    (forall k, uncached st k -> uncached st1 k) ->
    resolve fuel v st1 = Ok (w, st') -> w = VNone.
Proof.
  induction 1 as [|key entry E Hu _ IH]; intros st1 fuel w st' T U Hrun.
  - destruct fuel; [discriminate|]. simpl in Hrun.
    unfold ret in Hrun. now injection Hrun as <- _.
  - destruct fuel; [discriminate|]. rewrite resolve_ref_node in Hrun.
    apply resolve_ref_miss_entry_of in Hrun
      as (_ & entry' & st2 & E' & Hrun & _); [|now apply U].
    assert (entry' = entry) as ->.
    { unfold entry_of in *. rewrite T in E'. congruence. }
    apply (IH (enter key st1) fuel w st2); [exact T| |exact Hrun].
    intros k Hk. apply U in Hk. exact Hk.
Qed.

Lemma operator_node_ref v arg :
  operator_node v = Some (OpRef, arg) -> v = VDict [("$ref", arg)].
Proof.
  destruct v as [| | | | | | |d]; try discriminate.
  destruct d as [|[key a] [|? ?]]; try discriminate.
  simpl. unfold OPS_SWITCH.
  destruct (String.eqb key "$ref") eqn:E.
  - apply String.eqb_eq in E. subst key. intros H. now injection H as ->.
  - repeat (destruct (String.eqb key _); [discriminate|]). discriminate.
Qed.

(** What the operators other than [$ref] return is never null. *)
Lemma apply_operator_not_null rec fn arg st st' :
  fn <> OpRef ->
  apply_operator py_int py_float rec fn arg st = Ok (VNone, st') -> False.
Proof.
  intros Hfn H. destruct fn; [now elim Hfn| | | | |]; simpl in H.
  - unfold _resolve_range, ret, raise in H.
    repeat case_match; discriminate.
  - unfold _resolve_concat in H.
    apply bind_Ok_inv in H as (? & ? & _ & H).
    apply bind_Ok_inv in H as (items & ? & _ & H).
    apply bind_Ok_inv in H as (? & ? & _ & H).
    unfold ret in H. destruct items; discriminate.
  - unfold _resolve_product in H.
    apply bind_Ok_inv in H as (args & ? & _ & H).
    destruct (_is_list_like args).
    + apply bind_Ok_inv in H as (? & ? & _ & H).
      apply bind_Ok_inv in H as (? & ? & _ & H). discriminate.
    + destruct args; try discriminate.
      apply bind_Ok_inv in H as (? & ? & _ & H).
      apply bind_Ok_inv in H as (? & ? & _ & H). discriminate.
  - unfold _resolve_zip in H.
    apply bind_Ok_inv in H as (? & ? & _ & H).
    apply bind_Ok_inv in H as (? & ? & _ & H).
    apply bind_Ok_inv in H as (? & ? & _ & H). discriminate.
  - unfold _resolve_env in H.
    apply bind_Ok_inv in H as ([[key dflt] c] & ? & _ & H).
    apply bind_Ok_inv in H as ([raw|] & ? & _ & H).
    + unfold construct, bind, lift, ret, raise in H.
      repeat case_match; discriminate.
    + destruct dflt; discriminate.
Qed.

(** A node that resolves to null is a null chain in the state in which
    the call returns. *)
Lemma returns_null_chain fuel :
  forall v st st', resolve fuel v st = Ok (VNone, st') -> null_chain st' v.
Proof.
  induction fuel as [|fuel IH]; intros v st st' H; [discriminate|].
  change (resolve (S fuel) v st)
    with (_resolve_body py_int py_float (resolve fuel) v st) in H.
  unfold _resolve_body in H.
  destruct (operator_node v) as [[fn arg]|] eqn:Hop.
  - assert (Hfn : fn = OpRef \/ fn <> OpRef)
      by (destruct fn; (now left) || (right; discriminate)).
    destruct Hfn as [->|Hfn].
    2:{ now apply apply_operator_not_null in H. }
    apply operator_node_ref in Hop. subst v.
    change (_resolve_ref (resolve fuel) arg st = Ok (VNone, st')) in H.
    destruct arg as [| | | |key| | |]; try discriminate.
    destruct (is_None (default VNone (computed st !! key))) eqn:Hu.
    2:{ rewrite resolve_ref_hit in H by exact Hu. injection H as Hv _.
        rewrite Hv in Hu. discriminate. }
    apply (resolve_ref_miss_entry_of _ _ _ _ _ Hu) in H
      as (_ & entry & st2 & E & Hrun & ->).
    pose proof (resolve_frame _ _ _ _ _ Hrun) as (T & _).
    assert (Hmono : forall w, null_chain st2 w ->
                      null_chain (leave key VNone st2) w).
    { intros w. apply null_chain_mono; [reflexivity|].
      intros k Hk. unfold uncached in *. simpl.
      destruct (decide (k = key)) as [->|Hne].
      - now rewrite lookup_insert_eq.
      - now rewrite lookup_insert_ne by congruence. }
    apply (null_chain_ref _ key entry).
    + unfold entry_of in *. simpl in *. now rewrite T.
    + unfold uncached. simpl. now rewrite lookup_insert_eq.
    + apply Hmono, IH with (st := enter key st). exact Hrun.
  - destruct v; simpl in H; unfold ret in H; try discriminate.
    + constructor.
    + apply bind_Ok_inv in H as (? & ? & _ & H). discriminate.
    + apply bind_Ok_inv in H as (? & ? & _ & H). discriminate.
    + apply bind_Ok_inv in H as (? & ? & _ & H). discriminate.
Qed.

Lemma resolved_once_refl st : resolved_once st st.
Proof.
  split; [reflexivity|]. split; [reflexivity|]. split; [tauto|].
  intros key. split; [now intros _|]. intros _ _. now left.
Qed.

Lemma resolved_once_trans st1 st2 st3 :
  resolved_once st1 st2 -> resolved_once st2 st3 -> resolved_once st1 st3.
Proof.
  intros (T12 & R12 & D12 & K12) (T23 & R23 & D23 & K23).
  split; [congruence|]. split; [congruence|]. split; [now auto|].
  intros key. destruct (K12 key) as [A12 B12]. destruct (K23 key) as [A23 B23].
  split.
  - intros HP. destruct (A12 HP) as [C N].
    destruct A23 as [C' N'].
    { destruct HP as [Hu|Hin]; [left|right].
      - unfold usable in *. now rewrite C.
      - now rewrite R12. }
    split; congruence.
  - intros Hu Hr. destruct (B12 Hu Hr) as [[C N]|[[C N]|[U N]]].
    + destruct B23 as [[C' N']|[[C' N']|[U' N']]].
      * unfold uncached in *. now rewrite C.
      * now rewrite R12.
      * left. split; congruence.
      * right; left. now split.
      * right; right. split; [exact U'|congruence].
    + right; left.
      assert (N3 : null_chain st3 (ref_node key)) by now apply D23.
      split; [|exact N3].
      destruct B23 as [[C' N']|[[C' N']|[U' N']]].
      * unfold uncached. now rewrite C.
      * now rewrite R12.
      * congruence.
      * exact C'.
      * apply null_chain_ref_inv in N3 as [Hu3 _].
        unfold uncached, usable in *. congruence.
    + right; right. destruct A23 as [C' N']; [now left|].
      split; [|congruence]. unfold usable in *. now rewrite C'.
Qed.

(** [_resolve_ref] maintains the relation when the recursive call does,
    resolves null chains to null and returns null for null chains only. *)
Lemma resolve_ref_once rec key :
  (forall v, preserves resolved_once (rec v)) ->
  (forall v st w st', null_chain st v -> rec v st = Ok (w, st') -> w = VNone) ->
  (forall v st st', rec v st = Ok (VNone, st') -> null_chain st' v) ->
  preserves resolved_once (_resolve_ref rec key).
Proof.
  intros Hrec HA HC st a st' H. destruct key; try discriminate.
  destruct (is_None (default VNone (computed st !! s))) eqn:Hu.
  2:{ rewrite resolve_ref_hit in H by exact Hu. injection H as _ <-.
      apply resolved_once_refl. }
  apply (resolve_ref_miss_entry_of _ _ _ _ _ Hu) in H
    as (Hr & entry & st2 & E & Hrun & ->).
  pose proof (Hrec _ _ _ _ Hrun) as (T & Rs & D & K).
  assert (Hback : forall k, uncached st2 k -> uncached (enter s st) k).
  { intros k Hk.
    destruct (is_None (default VNone (computed (enter s st) !! k))) eqn:Hk1;
      [exact Hk1|].
    destruct (K k) as [K1 _]. destruct K1 as [C _]; [now left|].
    unfold uncached in Hk. rewrite C in Hk. congruence. }
  assert (DL : forall v, null_chain st2 v -> null_chain (leave s a st2) v).
  { intros v Hv. induction Hv as [|key e Ee Ue Ne IH]; [constructor|].
    apply (null_chain_ref _ key e); [exact Ee| |exact IH].
    unfold uncached. simpl. destruct (decide (key = s)) as [->|Hne].
    - rewrite lookup_insert_eq. simpl.
      assert (e = entry) as ->.
      { unfold entry_of in *. rewrite T in Ee. simpl in Ee. congruence. }
      rewrite (HA entry (enter s st) a st2); [reflexivity| |exact Hrun].
      apply (null_chain_mono st2); [now symmetry|exact Hback|exact Ne].
    - rewrite lookup_insert_ne by congruence. exact Ue. }
  split; [exact T|]. split; [simpl in *; rewrite Rs; set_solver|].
  split.
  { intros v Hv. apply DL, D.
    revert Hv. apply null_chain_mono; [reflexivity|now intros k Hk]. }
  intros k. destruct (decide (k = s)) as [->|Hne].
  - split.
    + intros [Hus|Hin]; [unfold usable in Hus; congruence|contradiction].
    + intros _ _. destruct (K s) as [K1 _].
      destruct K1 as [C N]; [right; simpl; set_solver|].
      unfold resolutions in *. simpl in N. rewrite count_occ_app in N.
      simpl in N. destruct (String.string_dec s s); [|congruence].
      destruct (is_None a) eqn:Ha.
      * right; left. destruct a; try discriminate.
        split; [simpl; apply lookup_insert_eq|].
        apply (null_chain_ref _ s entry).
        -- unfold entry_of in *. simpl in *. now rewrite T.
        -- unfold uncached. simpl. now rewrite lookup_insert_eq.
        -- apply DL. apply (HC _ _ _ Hrun).
      * right; right. split.
        -- unfold usable. simpl. now rewrite lookup_insert_eq.
        -- simpl. lia.
  - assert (Hcount : count_occ String.string_dec (trace (enter s st)) k
                     = count_occ String.string_dec (trace st) k).
    { simpl. rewrite count_occ_app. simpl.
      destruct (String.string_dec s k); [congruence|lia]. }
    destruct (K k) as [K1 K3]. unfold resolutions in *. split.
    + intros HP. destruct K1 as [C N].
      { destruct HP as [Hus|Hin]; [now left|right; simpl; set_solver]. }
      simpl. rewrite lookup_insert_ne by congruence.
      split; [exact C|]. now rewrite <- Hcount.
    + intros Huk Hnk.
      destruct K3 as [[C N]|[[C N]|[U N]]];
        [exact Huk|simpl; set_solver|..].
      * left. simpl. rewrite lookup_insert_ne by congruence.
        split; [exact C|]. now rewrite <- Hcount.
      * right; left. simpl. rewrite lookup_insert_ne by congruence.
        split; [exact C|now apply DL].
      * right; right. unfold usable in *. simpl.
        rewrite lookup_insert_ne by congruence.
        split; [exact U|]. now rewrite <- Hcount.
Qed.

Lemma resolve_once fuel : forall v, preserves resolved_once (resolve fuel v).
Proof.
  induction fuel as [|fuel IH]; intros v.
  - intros st a st' H. discriminate.
  - change (resolve (S fuel) v)
      with (_resolve_body py_int py_float (resolve fuel) v).
    apply (resolve_body_preserves resolved_once_refl resolved_once_trans);
      [exact IH|].
    intros key. apply resolve_ref_once; [exact IH| |apply returns_null_chain].
    intros w st t st' Hw Hrun.
    now apply (null_chain_returns_null st w Hw st fuel t st').
Qed.

(** What [resolved_once] says of one key, in the terms of the cache. *)
Lemma resolved_once_key st st' key :
  resolved_once st st' ->
  (usable st key ->
     computed st' !! key = computed st !! key
     /\ resolutions st' key = resolutions st key)
  /\ (uncached st key -> usable st' key ->
        resolutions st' key = S (resolutions st key))
  /\ (resolutions st' key <> resolutions st key ->
        (usable st' key /\ resolutions st' key = S (resolutions st key))
        \/ (computed st' !! key = Some VNone
            /\ null_chain st' (ref_node key))).
Proof.
  intros (_ & _ & _ & K). destruct (K key) as [K1 K3].
  split; [intros Hu; apply K1; now left|].
  assert (Hcases : uncached st key ->
            (computed st' !! key = computed st !! key
             /\ resolutions st' key = resolutions st key)
            \/ (computed st' !! key = Some VNone
                /\ null_chain st' (ref_node key))
            \/ (usable st' key
                /\ resolutions st' key = S (resolutions st key))).
  { intros Hu. destruct (decide (key ∈ resolving st)) as [Hin|Hout].
    - left. apply K1. now right.
    - now apply K3. }
  split.
  - intros Hu Hu'. destruct (Hcases Hu) as [[C N]|[[C N]|[U N]]].
    + unfold uncached, usable in *. rewrite C in Hu'. congruence.
    + unfold usable in Hu'. rewrite C in Hu'. discriminate.
    + exact N.
  - intros Hn.
    destruct (is_None (default VNone (computed st !! key))) eqn:Hu.
    + destruct (Hcases Hu) as [[C N]|[[C N]|[U N]]];
        [contradiction|now right|now left].
    + destruct K1 as [_ N]; [now left|contradiction].
Qed.

(** The reference that fills the cache, and what is resolved in the state
    in which it returned. *)
Lemma reference_fills_cache :
  forall fuel key st v st',
    uncached st key ->
    resolve (S fuel) (ref_node key) st = Ok (v, st') ->
    v <> VNone ->
    resolutions st' key = S (resolutions st key)
    /\ computed st' !! key = Some v
    /\ forall fuel' x w st'',
         resolve fuel' x st' = Ok (w, st'') ->
         resolutions st'' key = resolutions st' key
         /\ computed st'' !! key = Some v
         /\ forall fuel'',
              resolve (S fuel'') (ref_node key) st'' = Ok (v, st'').
Proof.
  intros fuel key st v st' Hu Hrun Hv. rewrite resolve_ref_node in Hrun.
  apply (resolve_ref_miss_inv _ _ _ _ _ Hu) in Hrun
    as (Hr & entry & st2 & Hrun & ->).
  apply resolve_quiet in Hrun. destruct Hrun as [_ Q].
  destruct (Q key) as [_ N].
  { simpl. set_solver. }
  { exact Hu. }
  assert (Hcache : computed (leave key v st2) !! key = Some v).
  { simpl. apply lookup_insert_eq. }
  assert (Husable : usable (leave key v st2) key).
  { unfold usable. rewrite Hcache. simpl. destruct v; try reflexivity.
    now elim Hv. }
  split; [|split; [exact Hcache|]].
  - unfold resolutions in *. simpl in *. rewrite N, count_occ_app. simpl.
    destruct (String.string_dec key key); [lia|congruence].
  - intros fuel' x w st'' Hnext. apply resolve_memoized in Hnext.
    destruct (Hnext key Husable) as [C N']. rewrite Hcache in C.
    split; [exact N'|]. split; [exact C|].
    intros fuel''. rewrite resolve_ref_node, resolve_ref_hit.
    + now rewrite C.
    + unfold usable in *. now rewrite C, <- Hcache.
Qed.

(** C1, amended.  Three statements, about values that are not null.

    The reference that fills the cache: when a reference to a key that has
    no usable cache entry completes with a value that is not null,
    [_resolve_ref] has run the resolution of the key's toplevel entry
    exactly once and has stored the value; whatever is resolved in the
    state in which it returned, the entry is not resolved again, the
    stored value stays and every reference to the key returns it from the
    cache without touching the state.

    Any completed call of [_resolve], be it the whole build, the
    resolution of an entry inside which the key is referenced, or
    something resolved later: a value that is cached and not null when the
    call starts is still cached when it returns and the key has not been
    resolved in between; a value that is cached and not null when the call
    returns is what every reference to the key then returns, and when the
    key had no usable entry at the start its entry has been resolved
    exactly once during the call; and a key that has been resolved during
    the call either holds a value that is not null and has been resolved
    exactly once, or holds null and is a null chain: its toplevel entry is
    null or leads to a null entry through references.

    A completed build: every key has never been resolved and is not
    cached, or has been resolved exactly once and holds a value that is
    not null, which every reference returns, or holds null and is a null
    chain. *)
Theorem ref_memoization :
  (forall fuel key st v st',
     uncached st key ->
     resolve (S fuel) (ref_node key) st = Ok (v, st') ->
     v <> VNone ->
     resolutions st' key = S (resolutions st key)
     /\ computed st' !! key = Some v
     /\ forall fuel' x w st'',
          resolve fuel' x st' = Ok (w, st'') ->
          resolutions st'' key = resolutions st' key
          /\ computed st'' !! key = Some v
          /\ forall fuel'',
               resolve (S fuel'') (ref_node key) st'' = Ok (v, st''))
  /\ (forall fuel x st w st' key,
        resolve fuel x st = Ok (w, st') ->
        (forall v,
           computed st !! key = Some v -> v <> VNone ->
           computed st' !! key = Some v
           /\ resolutions st' key = resolutions st key)
        /\ (forall v,
              computed st' !! key = Some v -> v <> VNone ->
              (uncached st key ->
                 resolutions st' key = S (resolutions st key))
              /\ forall fuel',
                   resolve (S fuel') (ref_node key) st' = Ok (v, st'))
        /\ (resolutions st' key <> resolutions st key ->
              (exists v,
                 computed st' !! key = Some v /\ v <> VNone
                 /\ resolutions st' key = S (resolutions st key))
              \/ (computed st' !! key = Some VNone
                  /\ null_chain st' (ref_node key))))
  /\ (forall fuel template environment os_environ w st' key,
        run_template py_int py_float fuel template environment os_environ
          = Ok (w, st') ->
        (resolutions st' key = 0%nat /\ computed st' !! key = None)
        \/ (exists v,
              computed st' !! key = Some v /\ v <> VNone
              /\ resolutions st' key = 1%nat
              /\ forall fuel',
                   resolve (S fuel') (ref_node key) st' = Ok (v, st'))
        \/ (computed st' !! key = Some VNone
            /\ null_chain st' (ref_node key))).
Proof.
  assert (Hnot_null : forall st key v,
            computed st !! key = Some v -> v <> VNone -> usable st key).
  { intros st key v Hc Hv. unfold usable. rewrite Hc. simpl.
    destruct v; try reflexivity. now elim Hv. }
  assert (Hvalue : forall st key,
            usable st key ->
            exists v, computed st !! key = Some v /\ v <> VNone).
  { intros st key Hu. unfold usable in Hu.
    destruct (computed st !! key) as [v|]; [|discriminate].
    exists v. split; [reflexivity|]. intros ->. discriminate. }
  assert (Hhit : forall st key v fuel,
            computed st !! key = Some v -> v <> VNone ->
            resolve (S fuel) (ref_node key) st = Ok (v, st)).
  { intros st key v fuel Hc Hv.
    rewrite resolve_ref_node, resolve_ref_hit by eauto. now rewrite Hc. }
  split; [exact reference_fills_cache|]. split.
  - intros fuel x st w st' key Hrun.
    destruct (resolved_once_key st st' key (resolve_once _ _ _ _ _ Hrun))
      as (H1 & H2 & H3).
    split; [|split].
    + intros v Hc Hv. destruct H1 as [C N]; [eauto|].
      split; [congruence|exact N].
    + intros v Hc Hv. split; [|now auto].
      intros Hu. apply H2; eauto.
    + intros Hn. destruct (H3 Hn) as [[U N]|[C N]]; [left|right; now split].
      destruct (Hvalue _ _ U) as (v & Hc & Hv). now exists v.
  - intros fuel template e os w st' key Hrun. unfold run_template in Hrun.
    destruct (resolve_once _ _ _ _ _ Hrun) as (_ & _ & _ & K).
    destruct (K key) as [_ [[C N]|[[C N]|[U N]]]].
    + reflexivity.
    + simpl. set_solver.
    + left. split; [exact N|]. rewrite C. apply lookup_empty.
    + right; right. now split.
    + right; left. destruct (Hvalue _ _ U) as (v & Hc & Hv).
      exists v. split; [exact Hc|]. split; [exact Hv|].
      split; [exact N|]. now auto.
Qed.

(** ** Chains of references *)

Lemma toplevel_getitem_dict tl key entry st :
  dict_get tl key = Some entry ->
  toplevel_getitem (VDict tl) key st = Ok (entry, st).
Proof. intros H. unfold toplevel_getitem, lift. now rewrite H. Qed.





End ResolverInvariants.


(** [test_config_ref_cycle]: the chain passes through a list. *)
Example test_config_ref_cycle :
  build_template decimal_int no_float 6
    (VDict [("a", VList [ref_node "b"; ref_node "c"]);
            ("b", ref_node "a");
            ("c", VList [VStr "hello"; VStr "world"])]) None ∅
  = Raise (RefCycle "b").
Proof. vm_compute. reflexivity. Qed.

(** ** Zip *)

Lemma heads_tails_None {A : Type} (ls : list (list A)) :
  heads_tails ls = None -> Exists (fun l => l = []) ls.
Proof.
  induction ls as [|[|x l] ls IH]; simpl; intros H; try discriminate.
  - now left.
  - right. apply IH. now destruct (heads_tails ls) as [[? ?]|].
Qed.

Lemma heads_tails_Some {A : Type} (ls : list (list A)) hs ts :
  heads_tails ls = Some (hs, ts) ->
  Forall2 (fun l h => l !! 0%nat = Some h) ls hs /\ ts = map (drop 1) ls.
Proof.
  revert hs ts. induction ls as [|[|x l] ls IH]; simpl; intros hs ts H;
    try discriminate.
  - injection H as <- <-. split; [constructor|reflexivity].
  - destruct (heads_tails ls) as [[hs' ts']|]; try discriminate.
    injection H as <- <-. destruct (IH _ _ eq_refl) as [F ->].
    split; [now constructor|]. simpl. now rewrite drop_0.
Qed.

Lemma shortest_empty {A : Type} (first : list A) others :
  Exists (fun l => l = []) others -> shortest first others = 0%nat.
Proof.
  induction 1 as [l ls ->|l ls _ IH]; simpl; [reflexivity|].
  rewrite IH. apply Nat.min_0_r.
Qed.

Lemma shortest_step {A : Type} (x : A) first others :
  Forall (fun l => l <> []) others ->
  shortest (x :: first) others = S (shortest first (map (drop 1) others)).
Proof.
  induction 1 as [|l ls Hl _ IH]; simpl; [reflexivity|].
  rewrite IH. destruct l as [|y l]; [contradiction|]. simpl.
  now rewrite drop_0.
Qed.

Lemma heads_tails_nonempty {A : Type} (ls : list (list A)) hs ts :
  heads_tails ls = Some (hs, ts) -> Forall (fun l => l <> []) ls.
Proof.
  revert hs ts. induction ls as [|[|x l] ls IH]; simpl; intros hs ts H;
    try discriminate; constructor; try discriminate.
  destruct (heads_tails ls) as [[hs' ts']|]; try discriminate. eauto.
Qed.

Lemma zip_from_length {A : Type} (first : list A) :
  forall others, length (zip_from first others) = shortest first others.
Proof.
  induction first as [|x first IH]; intros others; simpl.
  - induction others as [|l ls IHl]; simpl; [reflexivity|].
    rewrite <- IHl. now rewrite Nat.min_0_r.
  - destruct (heads_tails others) as [[hs ts]|] eqn:E.
    + simpl. rewrite IH. destruct (heads_tails_Some _ _ _ E) as [_ ->].
      symmetry. apply shortest_step. eapply heads_tails_nonempty, E.
    + simpl. symmetry. apply shortest_empty. now apply heads_tails_None.
Qed.

Lemma lookup_drop_1 {A : Type} (l : list A) i : drop 1 l !! i = l !! S i.
Proof. now rewrite lookup_drop. Qed.

(** Row [i] of the zip holds the [i]-th element of every input, and there
    is such a row exactly when every input has an [i]-th element. *)
Lemma zip_from_lookup {A : Type} (first : list A) :
  forall others i row,
    zip_from first others !! i = Some row <->
    Forall2 (fun l x => l !! i = Some x) (first :: others) row.
Proof.
  induction first as [|x first IH]; intros others i row; simpl.
  - split; [discriminate|]. intros H. inversion H; subst. discriminate.
  - destruct (heads_tails others) as [[hs ts]|] eqn:E.
    + destruct (heads_tails_Some _ _ _ E) as [F ->].
      destruct i as [|i]; simpl.
      * split.
        -- intros H. injection H as <-. now constructor.
        -- intros H. inversion H as [|? y ? row' Hy Hrest]; subst.
           simpl in Hy. injection Hy as <-. f_equal. f_equal.
           clear -F Hrest. revert row' Hrest.
           induction F as [|l h ls hs' Hl _ IHF]; intros row' Hrest;
             inversion Hrest; subst; [reflexivity|].
           f_equal; [congruence|eauto].
      * rewrite IH. split.
        -- intros H. inversion H as [|? y ? row' Hy Hrest]; subst.
           constructor; [exact Hy|].
           clear -Hrest. revert row' Hrest.
           induction others as [|l ls IHl]; intros row' Hrest;
             inversion Hrest; subst; constructor; eauto.
           now rewrite <- lookup_drop_1.
        -- intros H. inversion H as [|? y ? row' Hy Hrest]; subst.
           constructor; [exact Hy|].
           clear -Hrest. revert row' Hrest.
           induction others as [|l ls IHl]; intros row' Hrest;
             inversion Hrest; subst; constructor; eauto.
           now rewrite lookup_drop_1.
    + split; [discriminate|]. intros H.
      inversion H as [|? y ? row' Hy Hrest]; subst.
      apply heads_tails_None in E. exfalso. clear -E Hrest.
      revert row' Hrest. induction E as [l ls ->|l ls _ IHE]; intros row' Hrest;
        inversion Hrest; subst; [discriminate|eauto].
Qed.

Section ZipOperator.

Variable py_int : string -> option Z.
Variable py_float : string -> option float.

Abbreviation resolve := (_resolve py_int py_float).

Lemma resolve_zip_node fuel args st :
  resolve (S fuel) (op_node "$zip" args) st = _resolve_zip (resolve fuel) args st.
Proof. reflexivity. Qed.

(** C6, amended.  For a [$zip] whose argument is a list or tuple of
    sub-templates that resolve to sequences of one kind (all lists or all
    tuples), the output is the list of tuples of the element-wise zip: as
    many tuples as the shortest input has elements, tuple [i] holding the
    [i]-th element of every input in order, so every tuple has one
    component per input.  When the resolved inputs mix lists and tuples
    the assertion fails instead. *)
Theorem zip_semantics :
  forall fuel args st items st',
    _is_list_like args = true ->
    mapM (resolve fuel) (seq_items args) st = Ok (items, st') ->
    (same_sequence_kind items = true ->
     resolve (S fuel) (op_node "$zip" args) st
       = Ok (VList (map VTuple (py_zip (map seq_items items))), st')
     /\ forall first others,
         map seq_items items = first :: others ->
         length (py_zip (map seq_items items)) = shortest first others
         /\ (forall i row,
               py_zip (map seq_items items) !! i = Some row <->
               Forall2 (fun l x => l !! i = Some x) (first :: others) row)
         /\ (forall i row,
               py_zip (map seq_items items) !! i = Some row ->
               length row = length items))
    /\ (same_sequence_kind items = false ->
        resolve (S fuel) (op_node "$zip" args) st = Raise AssertionError).
Proof.
  intros fuel args st items st' Hargs Hitems.
  assert (E : resolve (S fuel) (op_node "$zip" args) st =
              if same_sequence_kind items
              then Ok (VList (map VTuple (py_zip (map seq_items items))), st')
              else Raise AssertionError).
  { rewrite resolve_zip_node. unfold _resolve_zip. rewrite Hargs.
    rewrite assert_true. unfold bind at 1. rewrite Hitems.
    fold (same_sequence_kind items). now destruct (same_sequence_kind items). }
  split; intros Hkind; rewrite E, Hkind; [split; [reflexivity|]|reflexivity].
  intros first others Hf. rewrite Hf. simpl. split; [|split].
  - apply zip_from_length.
  - apply zip_from_lookup.
  - intros i row Hrow. apply zip_from_lookup, Forall2_length in Hrow.
    rewrite <- Hrow, <- (length_map seq_items items), Hf. reflexivity.
Qed.

End ZipOperator.

(** C6 as stated fails: both inputs resolve to sequences, yet the zip is
    not returned. *)
Lemma zip_mixed_kinds_counterexample :
  _resolve decimal_int no_float 3 (VList [VInt 1]) (empty_state zip_mixed_template)
    = Ok (VList [VInt 1], empty_state zip_mixed_template)
  /\ _resolve decimal_int no_float 3 (op_node "$+" (VTuple [VList [VInt 2]]))
       (empty_state zip_mixed_template)
     = Ok (VTuple [VInt 2], empty_state zip_mixed_template)
  /\ build_template decimal_int no_float 4 zip_mixed_template None ∅
     = Raise AssertionError
  /\ build_template decimal_int no_float 4 zip_mixed_template None ∅
     <> Ok (VList [VTuple [VInt 1; VInt 2]]).
Proof. repeat split; try (vm_compute; reflexivity). discriminate. Qed.

(** [test_config_zip]'s inner node, and inputs of unequal length. *)
Lemma zip_semantics_witness :
  _resolve decimal_int no_float 3
    (op_node "$zip" (VList [VList [VStr "a"; VStr "b"; VStr "c"];
                            VList [VInt 1; VInt 2]]))
    (empty_state VNone)
  = Ok (VList [VTuple [VStr "a"; VInt 1]; VTuple [VStr "b"; VInt 2]],
        empty_state VNone).
Proof.
  destruct (zip_semantics decimal_int no_float 2
              (VList [VList [VStr "a"; VStr "b"; VStr "c"]; VList [VInt 1; VInt 2]])
              (empty_state VNone)
              [VList [VStr "a"; VStr "b"; VStr "c"]; VList [VInt 1; VInt 2]]
              (empty_state VNone) eq_refl eq_refl) as [H _].
  destruct (H eq_refl) as [E _]. exact E.
Defined.

(** ** Concatenation *)

Section ConcatOperator.

Variable py_int : string -> option Z.
Variable py_float : string -> option float.

Abbreviation resolve := (_resolve py_int py_float).

Lemma resolve_concat_node fuel args st :
  resolve (S fuel) (op_node "$+" args) st = _resolve_concat (resolve fuel) args st.
Proof. reflexivity. Qed.

Lemma list_like_iterable v : _is_list_like v = true -> isinstance v TIterable = true.
Proof. now destruct v. Qed.

Lemma seq_items_same_kind like items :
  _is_list_like like = true -> seq_items (same_kind like items) = items.
Proof. now destruct like. Qed.

Lemma same_kind_idem like items items' :
  same_kind (same_kind like items) items' = same_kind like items'.
Proof. now destruct like. Qed.

Lemma flat_map_seq_items items :
  forallb _is_list_like items = true ->
  flat_map (fun item => default [] (py_iter item)) items
    = concat (map seq_items items).
Proof.
  induction items as [|v items IH]; simpl; [reflexivity|].
  intros H. apply andb_true_iff in H as [Hv H]. rewrite (IH H).
  f_equal. now destruct v.
Qed.

(** C3, amended.  For a [$+] over a list or tuple of sub-templates: if an
    element resolves to a value that is not iterable (null, a boolean or a
    number) the assertion fails; otherwise the output is the one-level
    flattening, in input order, of what iterating each resolved element
    yields, as a sequence of the kind of the argument.  Lists and tuples
    yield their elements; a string is iterable and yields its characters,
    a mapping its keys. *)
Theorem concat_semantics :
  forall fuel args st items st',
    _is_list_like args = true ->
    mapM (resolve fuel) (seq_items args) st = Ok (items, st') ->
    (_check_type_all items TIterable = false ->
     resolve (S fuel) (op_node "$+" args) st = Raise AssertionError)
    /\ (_check_type_all items TIterable = true ->
        resolve (S fuel) (op_node "$+" args) st
          = Ok (same_kind args
                  (flat_map (fun item => default [] (py_iter item)) items), st'))
    /\ (forallb _is_list_like items = true ->
        resolve (S fuel) (op_node "$+" args) st
          = Ok (same_kind args (concat (map seq_items items)), st'))
    /\ (forall v, isinstance v TIterable = false <->
                  match v with
                  | VNone | VBool _ | VInt _ | VFloat _ => True
                  | _ => False
                  end).
Proof.
  intros fuel args st items st' Hargs Hitems.
  assert (E : resolve (S fuel) (op_node "$+" args) st =
              if _check_type_all items TIterable
              then Ok (same_kind args
                         (flat_map (fun item => default [] (py_iter item)) items), st')
              else Raise AssertionError).
  { rewrite resolve_concat_node. unfold _resolve_concat, _map_list_like.
    rewrite (list_like_iterable _ Hargs), Hargs.
    cbv [bind assert ret]. rewrite Hitems.
    rewrite (seq_items_same_kind _ _ Hargs), same_kind_idem.
    now destruct (_check_type_all items TIterable). }
  split; [|split; [|split]].
  - intros H. now rewrite E, H.
  - intros H. now rewrite E, H.
  - intros H. rewrite E, (flat_map_seq_items _ H).
    replace (_check_type_all items TIterable) with true; [reflexivity|].
    symmetry. unfold _check_type_all. apply forallb_forall.
    intros v Hv. apply list_like_iterable.
    eapply forallb_forall in H; eassumption.
  - intros v. destruct v; simpl; split; intros H; try discriminate; tauto.
Qed.

End ConcatOperator.

(** C3 as stated fails: a string element and a mapping element are not
    flat sequences, and the operator returns their characters and keys
    instead of failing. *)
Lemma concat_accepts_strings_counterexample :
  _resolve decimal_int no_float 2 (VStr "ab") (empty_state VNone)
    = Ok (VStr "ab", empty_state VNone)
  /\ _is_list_like (VStr "ab") = false
  /\ build_template decimal_int no_float 3
       (op_node "$+" (VList [VStr "ab"; VList [VInt 1]])) None ∅
     = Ok (VList [VStr "a"; VStr "b"; VInt 1])
  /\ build_template decimal_int no_float 3
       (op_node "$+" (VList [VDict [("x", VInt 1); ("y", VInt 2)]; VList [VInt 3]]))
       None ∅
     = Ok (VList [VStr "x"; VStr "y"; VInt 3]).
Proof. repeat split; vm_compute; reflexivity. Qed.

(** [test_config_concat], first assertion. *)
Lemma concat_semantics_witness :
  _resolve decimal_int no_float 3
    (op_node "$+" (VList [VList [VInt 1; VInt 2]; VList [VInt 3; VInt 4]]))
    (empty_state VNone)
  = Ok (VList [VInt 1; VInt 2; VInt 3; VInt 4], empty_state VNone).
Proof.
  destruct (concat_semantics decimal_int no_float 2
              (VList [VList [VInt 1; VInt 2]; VList [VInt 3; VInt 4]])
              (empty_state VNone)
              [VList [VInt 1; VInt 2]; VList [VInt 3; VInt 4]]
              (empty_state VNone) eq_refl eq_refl) as (_ & _ & H & _).
  exact (H eq_refl).
Defined.

(** ** Merging in place *)

Lemma dict_get_set k v d k' :
  dict_get (dict_set k v d) k' = if String.eqb k k' then Some v else dict_get d k'.
Proof.
  induction d as [|[k0 v0] d IH]; simpl; [reflexivity|].
  destruct (String.eqb_spec k0 k) as [->|Hne]; simpl.
  - now destruct (String.eqb k k').
  - rewrite IH. destruct (String.eqb_spec k0 k') as [->|Hne']; [|reflexivity].
    destruct (String.eqb_spec k k'); [congruence|reflexivity].
Qed.

Lemma dict_get_keys d k : k ∈ dict_keys d <-> is_Some (dict_get d k).
Proof.
  induction d as [|[k0 v0] d IH]; simpl.
  - split; [intros H; inversion H|intros [? H]; discriminate].
  - destruct (String.eqb k0 k) eqn:E.
    + apply String.eqb_eq in E as ->. split; [eauto|intros _; left].
    + rewrite <- IH. apply String.eqb_neq in E. split.
      * intros H. inversion H; subst; [congruence|assumption].
      * intros H. now right.
Qed.

Lemma dict_update_get_other o : forall b k,
  k ∉ dict_keys o -> dict_get (dict_update b o) k = dict_get b k.
Proof.
  unfold dict_update. induction o as [|[k0 v0] o IH]; intros b k Hk; simpl.
  - reflexivity.
  - simpl in Hk. apply not_elem_of_cons in Hk as [Hne Hk].
    rewrite (IH _ _ Hk), dict_get_set.
    destruct (String.eqb k0 k) eqn:E; [|reflexivity].
    apply String.eqb_eq in E. congruence.
Qed.

Lemma dict_update_keep o : forall b k,
  is_Some (dict_get b k) -> is_Some (dict_get (dict_update b o) k).
Proof.
  unfold dict_update. induction o as [|[k0 v0] o IH]; intros b k Hk; simpl.
  - exact Hk.
  - apply IH. rewrite dict_get_set. destruct (String.eqb k0 k); eauto.
Qed.

Lemma dict_update_keys o : forall b k,
  k ∈ dict_keys o -> is_Some (dict_get (dict_update b o) k).
Proof.
  unfold dict_update. induction o as [|[k0 v0] o IH]; intros b k Hk; simpl.
  - inversion Hk.
  - simpl in Hk. apply elem_of_cons in Hk as [->|Hk].
    + apply (dict_update_keep o). rewrite dict_get_set, String.eqb_refl. eauto.
    + now apply IH.
Qed.

Lemma fold_update_keep ds : forall d0 k,
  is_Some (dict_get d0 k) -> is_Some (dict_get (fold_left dict_update ds d0) k).
Proof.
  induction ds as [|d ds IH]; intros d0 k H; simpl; [exact H|].
  apply IH. now apply dict_update_keep.
Qed.

Lemma fold_update_keys ds : forall d0 d k,
  d ∈ ds -> k ∈ dict_keys d ->
  k ∈ dict_keys (fold_left dict_update ds d0).
Proof.
  induction ds as [|d1 ds IH]; intros d0 d k Hd Hk; simpl.
  - inversion Hd.
  - apply elem_of_cons in Hd as [->|Hd].
    + apply dict_get_keys, fold_update_keep. now apply dict_update_keys.
    + eapply IH; eassumption.
Qed.

Lemma fold_update_get_other ds : forall d0 k,
  (forall d, d ∈ ds -> k ∉ dict_keys d) ->
  dict_get (fold_left dict_update ds d0) k = dict_get d0 k.
Proof.
  induction ds as [|d ds IH]; intros d0 k H; simpl; [reflexivity|].
  rewrite IH by (intros d' Hd'; apply H; now right).
  apply dict_update_get_other, H. left.
Qed.

Lemma update_in_place_frame base t h l :
  l <> base -> update_in_place base t h !! l = h !! l.
Proof.
  intros Hl. unfold update_in_place.
  destruct (h !! base), (h !! t); try reflexivity.
  now rewrite lookup_insert_ne.
Qed.

Lemma update_in_place_dom base t (h : gmap location entries) :
  dom (update_in_place base t h) = dom h.
Proof.
  unfold update_in_place. destruct (h !! base) eqn:Hb; [|reflexivity].
  destruct (h !! t); [|reflexivity].
  rewrite dom_insert_L. apply elem_of_dom_2 in Hb. set_solver.
Qed.

Lemma fold_update_frame base rest : forall (h : gmap location entries) l,
  l <> base ->
  fold_left (fun h t => update_in_place base t h) rest h !! l = h !! l.
Proof.
  induction rest as [|t rest IH]; intros h l Hl; simpl; [reflexivity|].
  rewrite IH by assumption. now apply update_in_place_frame.
Qed.

Lemma fold_update_dom base rest : forall (h : gmap location entries),
  dom (fold_left (fun h t => update_in_place base t h) rest h) = dom h.
Proof.
  induction rest as [|t rest IH]; intros h; simpl; [reflexivity|].
  rewrite IH. apply update_in_place_dom.
Qed.

Lemma Forall2_lookup_frame (h h' : gmap location entries) base rest ds :
  (forall l, l <> base -> h' !! l = h !! l) ->
  base ∉ rest ->
  Forall2 (fun l d => h !! l = Some d) rest ds ->
  Forall2 (fun l d => h' !! l = Some d) rest ds.
Proof.
  intros Hframe Hnot H. induction H as [|l d rest ds Hl _ IH]; constructor.
  - rewrite Hframe; [exact Hl|]. intros ->. apply Hnot. left.
  - apply IH. intros Hin. apply Hnot. now right.
Qed.

Lemma fold_update_base base rest : forall (h : gmap location entries) d0 ds,
  h !! base = Some d0 ->
  Forall2 (fun l d => h !! l = Some d) rest ds ->
  base ∉ rest ->
  fold_left (fun h t => update_in_place base t h) rest h !! base
    = Some (fold_left dict_update ds d0).
Proof.
  induction rest as [|t rest IH]; intros h d0 ds Hb Hds Hnot;
    inversion Hds as [|? d ? ds' Ht Hrest]; subst; simpl; [exact Hb|].
  apply not_elem_of_cons in Hnot as [Hne Hnot].
  apply IH; [| |exact Hnot].
  - unfold update_in_place. rewrite Hb, Ht. apply lookup_insert_eq.
  - eapply Forall2_lookup_frame; [|exact Hnot|exact Hrest].
    intros l Hl. now apply update_in_place_frame.
Qed.

Section MergeInPlace.

Variable py_int : string -> option Z.
Variable py_float : string -> option float.

Abbreviation merge := (merge_templates py_int py_float).

(** C9. [merge_templates] updates the object of its first template in
    place.  After the call that object holds the first dictionary updated
    with each later one in turn, so every top-level key of a later template
    is a key of it and the keys they do not mention keep their value; no
    other object of the store changes, the later templates among them, and
    no object is created: the merged mapping is the first template itself,
    and it is what [build_template] receives. *)
Theorem merge_templates_mutates_first :
  forall fuel base rest e os (h : gmap location entries) d0 ds,
    h !! base = Some d0 ->
    Forall2 (fun l d => h !! l = Some d) rest ds ->
    base ∉ rest ->
    snd (merge fuel (base :: rest) e os h) !! base
      = Some (fold_left dict_update ds d0)
    /\ (forall d k, d ∈ ds -> k ∈ dict_keys d ->
          k ∈ dict_keys (fold_left dict_update ds d0))
    /\ (forall k, (forall d, d ∈ ds -> k ∉ dict_keys d) ->
          dict_get (fold_left dict_update ds d0) k = dict_get d0 k)
    /\ (forall l, l <> base ->
          snd (merge fuel (base :: rest) e os h) !! l = h !! l)
    /\ Forall2 (fun l d => snd (merge fuel (base :: rest) e os h) !! l = Some d)
         rest ds
    /\ dom (snd (merge fuel (base :: rest) e os h)) = dom h
    /\ fst (merge fuel (base :: rest) e os h)
       = build_template py_int py_float fuel
           (VDict (fold_left dict_update ds d0)) e os.
Proof.
  intros fuel base rest e os h d0 ds Hb Hds Hnot.
  pose proof (fold_update_base base rest h d0 ds Hb Hds Hnot) as Hbase.
  assert (E : merge fuel (base :: rest) e os h =
              (build_template py_int py_float fuel
                 (VDict (fold_left dict_update ds d0)) e os,
               fold_left (fun h t => update_in_place base t h) rest h)).
  { unfold merge_templates. cbv zeta. now rewrite Hbase. }
  rewrite E. simpl.
  split; [exact Hbase|].
  split; [intros d k; apply fold_update_keys|].
  split; [intros k; apply fold_update_get_other|].
  split; [intros l Hl; now apply fold_update_frame|].
  split; [|split; [apply fold_update_dom|reflexivity]].
  eapply Forall2_lookup_frame; [|exact Hnot|exact Hds].
  intros l Hl. now apply fold_update_frame.
Qed.

End MergeInPlace.

Lemma merge_templates_mutates_first_witness :
  snd (merge_templates decimal_int no_float 8 [0%nat; 1%nat] None ∅ test_store)
    !! 0%nat
  = Some (inputs_template ++ small_machines_template).
Proof.
  destruct (merge_templates_mutates_first decimal_int no_float 8 0%nat [1%nat]
              None ∅ test_store inputs_template [small_machines_template])
    as [H _].
  - reflexivity.
  - repeat constructor.
  - intros Hin. apply list_elem_of_singleton in Hin. discriminate.
  - exact H.
Defined.

(** [test_merge_templates]: the merged template resolves, with the
    reference across templates. *)
Example test_merge_templates :
  fst (merge_templates decimal_int no_float 8 [0%nat; 1%nat] None ∅ test_store)
  = Ok (VDict
          [("inputs", VList [VInt 1; VInt 2]);
           ("experiments",
            VList [VDict [("inputs", VInt 1); ("machines", VDict [("cpus", VInt 4)])];
                   VDict [("inputs", VInt 2); ("machines", VDict [("cpus", VInt 4)])]]);
           ("machines", VList [VDict [("cpus", VInt 4)]])]).
Proof. vm_compute. reflexivity. Qed.

(** ** The tree walker on templates without operator nodes *)

Lemma dict_set_fresh k v d :
  k ∉ dict_keys d -> dict_set k v d = d ++ [(k, v)].
Proof.
  induction d as [|[k0 v0] d IH]; simpl; intros H; [reflexivity|].
  apply not_elem_of_cons in H as [Hne H].
  destruct (String.eqb_spec k0 k); [congruence|]. now rewrite IH.
Qed.

Lemma dict_of_items_app items : forall acc,
  NoDup (dict_keys acc ++ dict_keys items) ->
  fold_left (fun d kv => dict_set (fst kv) (snd kv) d) items acc = acc ++ items.
Proof.
  induction items as [|[k v] items IH]; intros acc Hnd; simpl.
  - now rewrite app_nil_r.
  - rewrite dict_set_fresh.
    + rewrite IH; [now rewrite <- app_assoc|].
      unfold dict_keys in *. rewrite map_app. simpl. now rewrite <- app_assoc.
    + simpl in Hnd. apply NoDup_app in Hnd as (_ & Hdisj & _).
      intros Hin. apply (Hdisj k Hin). left.
Qed.

Lemma dict_of_items_distinct items :
  NoDup (dict_keys items) -> dict_of_items items = items.
Proof. intros H. unfold dict_of_items. now rewrite dict_of_items_app. Qed.

Lemma list_max_elem (f : value -> nat) l x :
  In x l -> (f x <= list_max (map f l))%nat.
Proof.
  induction l as [|y l IH]; simpl; intros H; [contradiction|].
  destruct H as [->|H]; [lia|]. specialize (IH H). lia.
Qed.

Lemma list_max_entry (f : value -> nat) (d : entries) kv :
  In kv d -> (f (snd kv) <= list_max (map (fun kv => f (snd kv)) d))%nat.
Proof.
  induction d as [|y d IH]; simpl; intros H; [contradiction|].
  destruct H as [->|H]; [lia|]. specialize (IH H). lia.
Qed.

Section TreeWalker.

Variable py_int : string -> option Z.
Variable py_float : string -> option float.

Abbreviation resolve := (_resolve py_int py_float).

Lemma operator_free_node v : operator_free v = true -> operator_node v = None.
Proof.
  destruct v as [| | | | | | |d]; try reflexivity.
  change (operator_free (VDict d))
    with (match operator_node (VDict d) with
          | Some _ => false
          | None => forallb (fun kv => operator_free (snd kv)) d
          end).
  now destruct (operator_node (VDict d)).
Qed.

Lemma operator_free_entries d :
  operator_free (VDict d) = true ->
  forallb (fun kv => operator_free (snd kv)) d = true.
Proof.
  intros H. pose proof (operator_free_node _ H) as Hn.
  change (operator_free (VDict d))
    with (match operator_node (VDict d) with
          | Some _ => false
          | None => forallb (fun kv => operator_free (snd kv)) d
          end) in H.
  now rewrite Hn in H.
Qed.

(** On a template without operator nodes the walker rebuilds the tree,
    state untouched, except that every tuple comes back as a list. *)
Lemma walker_listifies fuel : forall v st,
  operator_free v = true -> wf_value v = true -> (depth v <= fuel)%nat ->
  resolve fuel v st = Ok (listify v, st).
Proof.
  induction fuel as [|fuel IH]; intros v st Hop Hwf Hd.
  - destruct v; simpl in Hd; lia.
  - simpl. unfold _resolve_body. rewrite (operator_free_node _ Hop).
    destruct v as [| | | | |l|l|d]; try reflexivity.
    + unfold bind. rewrite (mapM_pure _ listify); [reflexivity|].
      intros x Hx. simpl in Hop, Hwf, Hd.
      apply IH; try (eapply forallb_forall; eassumption).
      pose proof (list_max_elem depth l x Hx). lia.
    + unfold bind. rewrite (mapM_pure _ listify); [reflexivity|].
      intros x Hx. simpl in Hop, Hwf, Hd.
      apply IH; try (eapply forallb_forall; eassumption).
      pose proof (list_max_elem depth l x Hx). lia.
    + unfold bind.
      rewrite (mapM_pure _ (fun kv => (fst kv, listify (snd kv)))).
      * unfold ret. simpl listify. rewrite dict_of_items_distinct; [reflexivity|].
        unfold dict_keys. rewrite map_map. simpl.
        simpl in Hwf. apply andb_true_iff in Hwf as [Hnd _].
        now apply bool_decide_eq_true_1 in Hnd.
      * intros kv Hkv. unfold bind. rewrite IH; [reflexivity| | |].
        -- apply operator_free_entries in Hop.
           eapply forallb_forall in Hop; eassumption.
        -- simpl in Hwf. apply andb_true_iff in Hwf as [_ Hwf].
           eapply forallb_forall in Hwf; eassumption.
        -- simpl in Hd. pose proof (list_max_entry depth d kv Hkv). lia.
Qed.

Lemma listify_tuple_free v : tuple_free v = true -> listify v = v.
Proof.
  revert v. fix IH 1. intros [| | | | |l|l|d] H; try reflexivity; simpl in *.
  - f_equal. induction l as [|x l IHl]; [reflexivity|]. simpl in *.
    apply andb_true_iff in H as [Hx H]. f_equal; [now apply IH|now apply IHl].
  - discriminate.
  - f_equal. induction d as [|[k x] d IHd]; [reflexivity|]. simpl in *.
    apply andb_true_iff in H as [Hx H]. f_equal; [|now apply IHd].
    f_equal. now apply IH.
Qed.

(** The identity law on templates without operator nodes and without
    tuples. *)
Lemma identity_without_tuples fuel v e os :
  operator_free v = true -> wf_value v = true -> tuple_free v = true ->
  (depth v <= fuel)%nat ->
  build_template py_int py_float fuel v e os = Ok v.
Proof.
  intros Hop Hwf Ht Hd. unfold build_template, run_template.
  rewrite (walker_listifies fuel v _ Hop Hwf Hd).
  now rewrite (listify_tuple_free _ Ht).
Qed.

End TreeWalker.

(** ** The recursion bound

    A call that finishes within some bound, with a value or an exception,
    finishes in the same way within every larger bound. *)

Lemma below_refl {A : Type} (c : M A) : below c c.
Proof. intros st _. reflexivity. Qed.

Lemma below_bind {A B : Type} (c1 c2 : M A) (k1 k2 : A -> M B) :
  below c1 c2 -> (forall a, below (k1 a) (k2 a)) ->
  below (bind c1 k1) (bind c2 k2).
Proof.
  intros Hc Hk st H. unfold bind in *.
  destruct (c1 st) as [[a st1]| |] eqn:E.
  - rewrite (Hc st) by (rewrite E; discriminate). rewrite E. now apply Hk.
  - rewrite (Hc st) by (rewrite E; discriminate). now rewrite E.
  - now elim H.
Qed.

Lemma below_mapM {A B : Type} (f g : A -> M B) l :
  (forall x, below (f x) (g x)) -> below (mapM f l) (mapM g l).
Proof.
  intros H. induction l as [|x l IH]; simpl; [apply below_refl|].
  apply below_bind; [apply H|]. intros y.
  apply below_bind; [apply IH|]. intros ys. apply below_refl.
Qed.

Section RecursionBound.

Variable py_int : string -> option Z.
Variable py_float : string -> option float.

Abbreviation resolve := (_resolve py_int py_float).

Lemma resolve_ref_below rec1 rec2 key :
  (forall v, below (rec1 v) (rec2 v)) ->
  below (_resolve_ref rec1 key) (_resolve_ref rec2 key).
Proof.
  intros Hrec. destruct key; try apply below_refl. unfold _resolve_ref.
  apply below_bind; [apply below_refl|]. intros st.
  destruct (is_None _); [|apply below_refl].
  destruct (decide _); [apply below_refl|].
  apply below_bind; [apply below_refl|]. intros _.
  apply below_bind; [apply below_refl|]. intros entry.
  apply below_bind; [apply below_refl|]. intros _.
  apply below_bind; [apply Hrec|]. intros v. apply below_refl.
Qed.

Lemma map_list_like_below rec1 rec2 v :
  (forall v, below (rec1 v) (rec2 v)) ->
  below (_map_list_like rec1 v) (_map_list_like rec2 v).
Proof.
  intros Hrec. unfold _map_list_like.
  apply below_bind; [apply below_refl|]. intros _.
  apply below_bind; [now apply below_mapM|]. intros items. apply below_refl.
Qed.

Lemma resolve_body_below rec1 rec2 v :
  (forall v, below (rec1 v) (rec2 v)) ->
  below (_resolve_body py_int py_float rec1 v) (_resolve_body py_int py_float rec2 v).
Proof.
  intros Hrec. unfold _resolve_body.
  destruct (operator_node v) as [[fn arg]|].
  - destruct fn; simpl; try apply below_refl.
    + now apply resolve_ref_below.
    + unfold _resolve_concat. apply below_bind; [apply below_refl|]. intros _.
      apply below_bind; [now apply map_list_like_below|]. intros items.
      apply below_refl.
    + unfold _resolve_product. apply below_bind; [apply Hrec|]. intros args.
      destruct (_is_list_like args).
      * apply below_bind; [now apply map_list_like_below|]. intros args'.
        apply below_refl.
      * destruct args; try apply below_refl.
        apply below_bind; [now apply map_list_like_below|]. intros values.
        apply below_refl.
    + unfold _resolve_zip. apply below_bind; [apply below_refl|]. intros _.
      apply below_bind; [now apply below_mapM|]. intros items. apply below_refl.
  - destruct v; try apply below_refl.
    + apply below_bind; [now apply below_mapM|]. intros r. apply below_refl.
    + apply below_bind; [now apply below_mapM|]. intros r. apply below_refl.
    + apply below_bind; [|intros r; apply below_refl].
      apply below_mapM. intros kv.
      apply below_bind; [apply Hrec|]. intros r. apply below_refl.
Qed.

Lemma resolve_fuel_step fuel : forall v, below (resolve fuel v) (resolve (S fuel) v).
Proof.
  induction fuel as [|fuel IH]; intros v.
  - intros st H. now elim H.
  - change (below (_resolve_body py_int py_float (resolve fuel) v)
                  (_resolve_body py_int py_float (resolve (S fuel)) v)).
    now apply resolve_body_below.
Qed.

(** More fuel never changes the outcome of a call that finished. *)
Lemma resolve_fuel_mono fuel extra v st :
  resolve fuel v st <> OutOfFuel ->
  resolve (fuel + extra) v st = resolve fuel v st.
Proof.
  intros H. induction extra as [|extra IH].
  - now rewrite Nat.add_0_r.
  - rewrite Nat.add_succ_r, resolve_fuel_step; [exact IH|].
    now rewrite IH.
Qed.

Lemma run_template_fuel_mono fuel extra template e os :
  run_template py_int py_float fuel template e os <> OutOfFuel ->
  run_template py_int py_float (fuel + extra) template e os
    = run_template py_int py_float fuel template e os.
Proof. apply resolve_fuel_mono. Qed.

Lemma build_template_fuel_mono fuel extra template e os :
  build_template py_int py_float fuel template e os <> OutOfFuel ->
  build_template py_int py_float (fuel + extra) template e os
    = build_template py_int py_float fuel template e os.
Proof.
  intros H. unfold build_template in *.
  rewrite run_template_fuel_mono; [reflexivity|].
  intros E. rewrite E in H. now elim H.
Qed.

End RecursionBound.

(** ** Evaluations at concrete templates *)

(** The example of the specification: [b] and [c] are resolved once each. *)
Example memo_template_resolved_once :
  result_of (run_template decimal_int no_float 5 memo_template None ∅)
    = Ok (VDict [("a", VList [VInt 5; VInt 5]); ("b", VInt 5); ("c", VInt 5)])
  /\ trace_of (run_template decimal_int no_float 5 memo_template None ∅)
     = ["b"; "c"].
Proof. split; vm_compute; reflexivity. Qed.

(** C1 as stated fails.  The toplevel key [b] is referenced twice and its
    entry is null: the first reference resolves it and stores [None] in
    the cache, the second reference reads [None] back from
    [computed.get], takes it for a missing entry and resolves the entry
    again instead of returning from the cache.  The trace holds [b]
    twice. *)
Lemma null_entry_resolved_twice_counterexample :
  result_of (run_template decimal_int no_float 4 null_entry_template None ∅)
    = Ok (VDict [("a", VList [VNone; VNone]); ("b", VNone)])
  /\ trace_of (run_template decimal_int no_float 4 null_entry_template None ∅)
     = ["b"; "b"]
  /\ cache_of (run_template decimal_int no_float 4 null_entry_template None ∅) "b"
     = Some VNone
  /\ resolutions
       (state_of (run_template decimal_int no_float 4 null_entry_template None ∅)
          (empty_state null_entry_template)) "b" = 2%nat.
Proof. repeat split; vm_compute; reflexivity. Qed.

(** The same with any larger recursion bound. *)
Lemma null_entry_resolved_twice (extra : nat) :
  trace_of (run_template decimal_int no_float (4 + extra)
              null_entry_template None ∅)
  = ["b"; "b"].
Proof.
  rewrite run_template_fuel_mono by (vm_compute; discriminate).
  vm_compute. reflexivity.
Qed.

(** The key [c] of the template of the specification, referenced inside
    the resolution of [b]: when the reference to [b] has returned, [c] has
    been resolved once. *)
Lemma ref_memoization_witness :
  resolutions
    (state_of (_resolve decimal_int no_float 3 (ref_node "b")
                 (empty_state memo_template))
       (empty_state memo_template)) "c"
  = 1%nat.
Proof.
  destruct (ref_memoization decimal_int no_float) as (_ & Hcall & _).
  destruct (Hcall 3%nat (ref_node "b") (empty_state memo_template) (VInt 5)
              (state_of (_resolve decimal_int no_float 3 (ref_node "b")
                           (empty_state memo_template))
                 (empty_state memo_template)) "c") as (_ & H & _).
  - vm_compute. reflexivity.
  - destruct (H (VInt 5)) as [Hc _].
    + vm_compute. reflexivity.
    + discriminate.
    + rewrite Hc; reflexivity.
Defined.

(** C2 fails on the code.  The template has no operator node, and the
    tuple under [a] comes back as a list: the result is not the template. *)
Theorem tuple_becomes_list :
  forall extra : nat,
    operator_free tuple_template = true
    /\ build_template decimal_int no_float (3 + extra) tuple_template None ∅
       = Ok (VDict [("a", VList [VInt 1; VInt 2])])
    /\ build_template decimal_int no_float (3 + extra) tuple_template None ∅
       <> Ok tuple_template
    /\ _map_list_like (_resolve decimal_int no_float (2 + extra))
         (VTuple [VInt 1; VInt 2]) (empty_state tuple_template)
       = Ok (VTuple [VInt 1; VInt 2], empty_state tuple_template).
Proof.
  intros extra.
  rewrite build_template_fuel_mono by (vm_compute; discriminate).
  split; [reflexivity|]. split; [vm_compute; reflexivity|].
  split; [vm_compute; intros H; discriminate H|].
  unfold _map_list_like. cbv [bind assert ret _is_list_like isinstance orb].
  cbn [seq_items mapM]. unfold bind.
  rewrite !(resolve_fuel_mono decimal_int no_float 2 extra)
    by (vm_compute; discriminate).
  vm_compute. reflexivity.
Qed.

(** [test_config_zip] fails.  The argument resolves to a mapping whose
    field [a] is a sequence of three tuples; [_resolve_product] sends the
    per-field sequences through the walker once more, which turns each
    tuple into a list, so the output mappings hold lists where the test
    expects the tuples. *)
Lemma product_mapping_loses_tuples :
  forall extra : nat,
  result_of (_resolve decimal_int no_float (4 + extra) zip_product_argument
               (empty_state zip_product_template))
    = Ok (VDict [("a", VList [VTuple [VStr "a"; VInt 1];
                              VTuple [VStr "b"; VInt 2];
                              VTuple [VStr "c"; VInt 3]]);
                 ("b", VList [VStr "a"; VStr "b"])])
  /\ build_template decimal_int no_float (5 + extra) zip_product_template None ∅
     = Ok (VList
             [VDict [("a", VList [VStr "a"; VInt 1]); ("b", VStr "a")];
              VDict [("a", VList [VStr "a"; VInt 1]); ("b", VStr "b")];
              VDict [("a", VList [VStr "b"; VInt 2]); ("b", VStr "a")];
              VDict [("a", VList [VStr "b"; VInt 2]); ("b", VStr "b")];
              VDict [("a", VList [VStr "c"; VInt 3]); ("b", VStr "a")];
              VDict [("a", VList [VStr "c"; VInt 3]); ("b", VStr "b")]])
  /\ build_template decimal_int no_float (5 + extra) zip_product_template None ∅
     <> Ok zip_product_expected.
Proof.
  intros extra.
  rewrite resolve_fuel_mono by (vm_compute; discriminate).
  rewrite build_template_fuel_mono by (vm_compute; discriminate).
  split; [vm_compute; reflexivity|]. split; [vm_compute; reflexivity|].
  vm_compute. intros H. discriminate H.
Qed.

(** ** Product over a mapping: what the code computes *)

Section ProductOperator.

Variable py_int : string -> option Z.
Variable py_float : string -> option float.

Abbreviation resolve := (_resolve py_int py_float).

(** The argument is resolved; when the result is a mapping, its values are
    resolved a second time, and the output has one mapping per combination
    of what iterating these yields, in key order. *)
Lemma product_mapping_structure fuel args st d st1 values st2 :
  resolve fuel args st = Ok (VDict d, st1) ->
  mapM (resolve fuel) (dict_values d) st1 = Ok (values, st2) ->
  _check_type_all values TIterable = true ->
  resolve (S fuel) (op_node "$product" args) st
    = Ok (VList
            (map (fun items => VDict (dict_of_items (combine (dict_keys d) items)))
                 (itertools_product
                    (map (fun v => default [] (py_iter v)) values))), st2).
Proof.
  intros Hargs Hvalues Hiter.
  change (resolve (S fuel) (op_node "$product" args) st)
    with (_resolve_product (resolve fuel) args st).
  unfold _resolve_product. unfold bind at 1. rewrite Hargs.
  cbn [_is_list_like isinstance orb]. unfold _map_list_like.
  cbv [bind assert ret _is_list_like isinstance orb]. cbn [seq_items].
  rewrite Hvalues. cbn [seq_items same_kind]. now rewrite Hiter.
Qed.

(** The combinations come in the order of nested loops, the last factor
    innermost. *)
Lemma itertools_product_cons {A : Type} (x : A) l rest :
  itertools_product ((x :: l) :: rest)
    = map (cons x) (itertools_product rest) ++ itertools_product (l :: rest).
Proof. reflexivity. Qed.

Lemma itertools_product_length {A : Type} (factors : list (list A)) :
  length (itertools_product factors)
    = fold_right (fun l n => (length l * n)%nat) 1%nat factors.
Proof.
  induction factors as [|l rest IH]; [reflexivity|].
  induction l as [|x l IHl]; [reflexivity|].
  rewrite itertools_product_cons, length_app, length_map, IHl, IH.
  simpl. lia.
Qed.

(** A combination takes one element of every factor, in the order of the
    factors, and every such choice is a combination. *)
Lemma itertools_product_elem {A : Type} (factors : list (list A)) :
  forall items,
    items ∈ itertools_product factors <->
    Forall2 (fun x l => x ∈ l) items factors.
Proof.
  induction factors as [|l rest IH]; intros items; simpl.
  - rewrite list_elem_of_singleton. split; [intros ->; constructor|].
    intros H. now inversion H.
  - rewrite list_elem_of_In, in_flat_map. split.
    + intros (x & Hx & Hin). apply in_map_iff in Hin as (tl & <- & Htl).
      constructor; [now apply list_elem_of_In|]. now apply IH, list_elem_of_In.
    + intros H. inversion H as [|x ? tl ? Hx Htl]; subst.
      exists x. split; [now apply list_elem_of_In|].
      apply in_map_iff. exists tl. split; [reflexivity|].
      now apply list_elem_of_In, IH.
Qed.

(** Values without operator nodes and without tuples come back from the
    second resolution as they are: for them the product is over the
    per-field sequences of the resolved argument themselves. *)
Lemma plain_values_resolve_to_themselves fuel (l : list value) st :
  Forall (fun v => operator_free v = true /\ wf_value v = true
                   /\ tuple_free v = true /\ (depth v <= fuel)%nat) l ->
  mapM (resolve fuel) l st = Ok (l, st).
Proof.
  intros H. rewrite (mapM_pure _ (fun v => v)); [now rewrite map_id|].
  intros v Hv. rewrite Forall_forall in H.
  destruct (H v (proj2 (list_elem_of_In _ _) Hv)) as (Hop & Hwf & Ht & Hd).
  rewrite (walker_listifies py_int py_float fuel v st Hop Hwf Hd).
  now rewrite (listify_tuple_free _ Ht).
Qed.

Lemma combine_keys (keys : list string) (items : list value) :
  length items = length keys -> dict_keys (combine keys items) = keys.
Proof.
  revert items. induction keys as [|k keys IH]; intros [|x items] H;
    simpl in *; try discriminate; [reflexivity|].
  f_equal. apply IH. lia.
Qed.

Lemma itertools_product_row_length {A : Type} (factors : list (list A)) items :
  items ∈ itertools_product factors -> length items = length factors.
Proof. intros H. apply itertools_product_elem in H. eapply Forall2_length, H. Qed.

(** C5, amended.  For a [$product] whose argument resolves to a mapping
    with distinct field names: the values of that mapping are resolved
    once more by the tree walker, and when each is then iterable the
    output is a list of mappings, one per combination of the cartesian
    product of these per-field sequences, in the order of nested loops
    over the fields in key order (the last key varies fastest); a
    combination takes one element of every per-field sequence, and each
    output mapping has exactly the field names of the resolved argument,
    in the same order. *)
Theorem product_over_mapping :
  forall fuel args st d st1 values st2,
    resolve fuel args st = Ok (VDict d, st1) ->
    mapM (resolve fuel) (dict_values d) st1 = Ok (values, st2) ->
    _check_type_all values TIterable = true ->
    NoDup (dict_keys d) ->
    resolve (S fuel) (op_node "$product" args) st
      = Ok (VList
              (map (fun items => VDict (combine (dict_keys d) items))
                   (itertools_product
                      (map (fun v => default [] (py_iter v)) values))), st2)
    /\ length (itertools_product (map (fun v => default [] (py_iter v)) values))
       = fold_right (fun l n => (length l * n)%nat) 1%nat
           (map (fun v => default [] (py_iter v)) values)
    /\ (forall items,
          items ∈ itertools_product (map (fun v => default [] (py_iter v)) values)
          <-> Forall2 (fun x l => x ∈ l) items
                (map (fun v => default [] (py_iter v)) values))
    /\ (forall items,
          items ∈ itertools_product (map (fun v => default [] (py_iter v)) values)
          -> dict_keys (combine (dict_keys d) items) = dict_keys d)
    /\ (forall x l rest,
          map (fun v => default [] (py_iter v)) values = (x :: l) :: rest ->
          itertools_product (map (fun v => default [] (py_iter v)) values)
            = map (cons x) (itertools_product rest)
              ++ itertools_product (l :: rest)).
Proof.
  intros fuel args st d st1 values st2 Hargs Hvalues Hiter Hnd.
  assert (Hlen : forall items,
             items ∈ itertools_product
                       (map (fun v => default [] (py_iter v)) values) ->
             dict_keys (combine (dict_keys d) items) = dict_keys d).
  { intros items Hitems. apply combine_keys.
    rewrite (itertools_product_row_length _ _ Hitems), length_map.
    rewrite (mapM_length _ _ _ _ _ Hvalues).
    unfold dict_keys, dict_values. now rewrite !length_map. }
  split; [|split; [apply itertools_product_length|
           split; [apply itertools_product_elem|split; [exact Hlen|]]]].
  - rewrite (product_mapping_structure _ _ _ _ _ _ _ Hargs Hvalues Hiter).
    do 3 f_equal. apply map_ext_in. intros items Hitems. f_equal.
    apply dict_of_items_distinct. rewrite Hlen; [exact Hnd|].
    now apply list_elem_of_In.
  - intros x l rest ->. apply itertools_product_cons.
Qed.

End ProductOperator.

(** C5 as stated fails: the argument resolves to a mapping whose field
    [a] is the one-element sequence holding the node [{"$range": 2}]
    that the [$env] default left unresolved; the output mapping holds
    [[0, 1]], which is not an element of that sequence. *)
Lemma product_resolves_values_twice_counterexample :
  result_of (_resolve decimal_int no_float 4 default_product_argument
               (empty_state default_product_template))
    = Ok (VDict [("a", VList [op_node "$range" (VInt 2)]); ("b", VList [VInt 1])])
  /\ build_template decimal_int no_float 5 default_product_template None ∅
     = Ok (VList [VDict [("a", VList [VInt 0; VInt 1]); ("b", VInt 1)]])
  /\ build_template decimal_int no_float 5 default_product_template None ∅
     <> Ok (VList [VDict [("a", op_node "$range" (VInt 2)); ("b", VInt 1)]]).
Proof.
  split; [vm_compute; reflexivity|]. split; [vm_compute; reflexivity|].
  vm_compute. intros H. discriminate H.
Qed.

(** A mapping of two 2-element lists: all four mappings, the last key
    varying fastest. *)
Lemma product_over_mapping_witness :
  _resolve decimal_int no_float 4
    (op_node "$product"
       (VDict [("x", VList [VInt 1; VInt 2]); ("y", VList [VInt 3; VInt 4])]))
    (empty_state VNone)
  = Ok (VList [VDict [("x", VInt 1); ("y", VInt 3)];
               VDict [("x", VInt 1); ("y", VInt 4)];
               VDict [("x", VInt 2); ("y", VInt 3)];
               VDict [("x", VInt 2); ("y", VInt 4)]],
        empty_state VNone).
Proof.
  destruct (product_over_mapping decimal_int no_float 3
              (VDict [("x", VList [VInt 1; VInt 2]); ("y", VList [VInt 3; VInt 4])])
              (empty_state VNone)
              [("x", VList [VInt 1; VInt 2]); ("y", VList [VInt 3; VInt 4])]
              (empty_state VNone)
              [VList [VInt 1; VInt 2]; VList [VInt 3; VInt 4]]
              (empty_state VNone) eq_refl eq_refl eq_refl) as [H _].
  - apply NoDup_cons. split; [|apply NoDup_singleton].
    intros Hin. apply list_elem_of_singleton in Hin. discriminate.
  - exact H.
Defined.

(** ** The examples of the test suite *)

Example test_config_range :
  build_template decimal_int no_float 2 (op_node "$range" (VInt 5)) None ∅
    = Ok (VList (map VInt [0; 1; 2; 3; 4]))
  /\ build_template decimal_int no_float 2
       (op_node "$range" (VList [VInt 2; VInt 5])) None ∅
     = Ok (VList (map VInt [2; 3; 4]))
  /\ build_template decimal_int no_float 2
       (op_node "$range" (VList [VInt 3; VInt 40; VInt 5])) None ∅
     = Ok (VList (map VInt [3; 8; 13; 18; 23; 28; 33; 38])).
Proof. repeat split; vm_compute; reflexivity. Qed.

Example test_config_ref :
  build_template decimal_int no_float 5
    (VDict [("a", VList [ref_node "b"; ref_node "c"]);
            ("b", VStr "hello");
            ("c", VList [VStr "hello"; VStr "world"])]) None ∅
  = Ok (VDict [("a", VList [VStr "hello"; VList [VStr "hello"; VStr "world"]]);
               ("b", VStr "hello");
               ("c", VList [VStr "hello"; VStr "world"])]).
Proof. vm_compute. reflexivity. Qed.

Example test_config_product :
  build_template decimal_int no_float 4
    (op_node "$product" (VList [op_node "$range" (VInt 2); VList [VInt 3; VInt 4]]))
    None ∅
  = Ok (VList [VTuple [VInt 0; VInt 3]; VTuple [VInt 0; VInt 4];
               VTuple [VInt 1; VInt 3]; VTuple [VInt 1; VInt 4]]).
Proof. vm_compute. reflexivity. Qed.

Example test_config_product_mapping :
  build_template decimal_int no_float 5
    (op_node "$product"
       (VDict [("x", VList [VInt 1; VInt 2]); ("y", VList [VInt 3; VInt 4])]))
    None ∅
  = Ok (VList [VDict [("x", VInt 1); ("y", VInt 3)];
               VDict [("x", VInt 1); ("y", VInt 4)];
               VDict [("x", VInt 2); ("y", VInt 3)];
               VDict [("x", VInt 2); ("y", VInt 4)]]).
Proof. vm_compute. reflexivity. Qed.

Example test_env_use_default :
  build_template decimal_int no_float 2
    (op_node "$env" (VDict [("name", VStr "FOO"); ("default", VInt 2)])) None ∅
  = Ok (VInt 2).
Proof. vm_compute. reflexivity. Qed.

Example test_env_constructor :
  build_template decimal_int no_float 2
    (op_node "$env" (VDict [("name", VStr "FOO"); ("type", VStr "int")]))
    (Some {["FOO" := "123"]}) ∅
  = Ok (VInt 123).
Proof. vm_compute. reflexivity. Qed.

Example test_env_missing :
  build_template decimal_int no_float 2
    (op_node "$env" (VDict [("name", VStr "FOO")])) None ∅
  = Raise (EnvKeyNotFound (VStr "FOO")).
Proof. vm_compute. reflexivity. Qed.

(** * Further properties of the module *)

(** ** Range *)

(** A positive step: index [i] is in range exactly when the [i]-th value
    is below [stop]. *)
Lemma range_count_up (d s i : Z) :
  0 < s -> 0 <= i ->
  (i < (d + s - 1) / s <-> i * s < d).
Proof.
  intros Hs Hi.
  pose proof (Z.mul_div_le (d + s - 1) s Hs).
  pose proof (Z.mul_succ_div_gt (d + s - 1) s Hs).
  split; intros H1; nia.
Qed.

Lemma py_range_lookup start stop step i x :
  py_range start stop step !! i = Some x -> x = start + Z.of_nat i * step.
Proof.
  unfold py_range.
  destruct (0 <? step); [|destruct (step <? 0); [|intros H; discriminate H]];
    rewrite list_lookup_fmap; intros H;
    destruct (seq 0 _ !! i) as [j|] eqn:E; try discriminate;
    apply lookup_seq in E as [-> _]; simpl in H; now injection H as <-.
Qed.

Lemma py_range_elem start stop step x :
  step <> 0 ->
  (x ∈ py_range start stop step <->
   exists i, 0 <= i /\ x = start + i * step
             /\ if 0 <? step then x < stop else stop < x).
Proof.
  intros Hstep. unfold py_range.
  destruct (Z.ltb_spec 0 step) as [Hpos|Hneg].
  - rewrite list_elem_of_fmap. split.
    + intros (i & -> & Hi). apply elem_of_seq in Hi as [_ Hi]. simpl in Hi.
      exists (Z.of_nat i). split; [lia|]. split; [reflexivity|].
      assert (Z.of_nat i < (stop - start + step - 1) / step) by lia.
      apply range_count_up in H; lia.
    + intros (i & Hi & -> & Hlt). exists (Z.to_nat i).
      split; [now rewrite Z2Nat.id|]. apply elem_of_seq. simpl.
      split; [lia|].
      assert (i < (stop - start + step - 1) / step)
        by (apply range_count_up; lia).
      lia.
  - destruct (Z.ltb_spec step 0) as [Hlt|Hge]; [|lia].
    rewrite list_elem_of_fmap. split.
    + intros (i & -> & Hi). apply elem_of_seq in Hi as [_ Hi]. simpl in Hi.
      exists (Z.of_nat i). split; [lia|]. split; [reflexivity|].
      assert (Z.of_nat i < (start - stop + - step - 1) / - step)
        by (replace (start - stop + - step - 1) with (start - stop - step - 1)
              by lia; lia).
      apply range_count_up in H; lia.
    + intros (i & Hi & -> & Hgt). exists (Z.to_nat i).
      split; [now rewrite Z2Nat.id|]. apply elem_of_seq. simpl.
      split; [lia|].
      assert (i < (start - stop + - step - 1) / - step)
        by (apply range_count_up; lia).
      replace (start - stop - step - 1) with (start - stop + - step - 1) by lia.
      lia.
Qed.

Section RangeOperator.

Variable py_int : string -> option Z.
Variable py_float : string -> option float.

Abbreviation resolve := (_resolve py_int py_float).

Lemma resolve_range_node fuel args st :
  resolve (S fuel) (op_node "$range" args) st = _resolve_range args st.
Proof. reflexivity. Qed.

Lemma py_range_from_zero n :
  py_range 0 n 1 = map Z.of_nat (seq 0 (Z.to_nat n)).
Proof.
  unfold py_range. simpl. rewrite Z.div_1_r.
  replace (n - 0 + 1 - 1) with n by lia.
  apply map_ext. intros i. lia.
Qed.

(** X1. [{"$range": n}] for an integer [n] is the list [0, 1, ..., n-1],
    empty when [n] is zero or negative, and the state is untouched; a
    boolean counts as the integer 0 or 1. *)
Theorem range_of_integer :
  (forall fuel st n,
      resolve (S fuel) (op_node "$range" (VInt n)) st
        = Ok (VList (map (fun i => VInt (Z.of_nat i)) (seq 0 (Z.to_nat n))), st))
  /\ (forall (n : Z) (i : nat),
        (map (fun i => VInt (Z.of_nat i)) (seq 0 (Z.to_nat n))) !! i
          = if decide (Z.of_nat i < n) then Some (VInt (Z.of_nat i)) else None)
  /\ (forall fuel st b,
        resolve (S fuel) (op_node "$range" (VBool b)) st
          = Ok (VList (if b then [VInt 0] else []), st)).
Proof.
  split; [|split].
  - intros fuel st n.
    change (resolve (S fuel) (op_node "$range" (VInt n)) st)
      with (Ok (VList (map VInt (py_range 0 n 1)), st) : outcome (value * State)).
    rewrite py_range_from_zero, map_map. reflexivity.
  - intros n i. rewrite list_lookup_fmap.
    destruct (decide (Z.of_nat i < n)) as [Hlt|Hge].
    + rewrite lookup_seq_lt by lia. reflexivity.
    + rewrite lookup_seq_ge by lia. reflexivity.
  - intros fuel st b. rewrite resolve_range_node. now destruct b.
Qed.

(** X2. [{"$range": [start, stop, step]}] with a non-zero step is the
    half-open range: the value at index [i] is [start + i * step], and the
    values are exactly those of this form that lie before [stop] (below it
    for a positive step, above it for a negative one).  The two-element
    form is the same with step 1.  The state is untouched. *)
Theorem range_half_open :
  forall fuel st start stop step,
    step <> 0 ->
    resolve (S fuel) (op_node "$range" (VList [VInt start; VInt stop; VInt step])) st
      = Ok (VList (map VInt (py_range start stop step)), st)
    /\ resolve (S fuel) (op_node "$range" (VList [VInt start; VInt stop])) st
       = Ok (VList (map VInt (py_range start stop 1)), st)
    /\ (forall i x, py_range start stop step !! i = Some x ->
          x = start + Z.of_nat i * step)
    /\ (forall x, x ∈ py_range start stop step <->
          exists i, 0 <= i /\ x = start + i * step
                    /\ if 0 <? step then x < stop else stop < x).
Proof.
  intros fuel st start stop step Hstep.
  split; [|split; [reflexivity|split]].
  - rewrite resolve_range_node. unfold _resolve_range. simpl.
    destruct (Z.eqb_spec step 0); [contradiction|reflexivity].
  - apply py_range_lookup.
  - intros x. now apply py_range_elem.
Qed.

(** X3. What [$range] rejects.  An argument that is neither an integer nor
    a list or tuple of two or three elements raises the invalid-argument
    exception.  The elements are taken as written, not resolved: a list of
    two or three elements one of which is not an integer (a reference node,
    a string, a float) raises [TypeError].  A zero step raises
    [ValueError]. *)
Theorem range_invalid_arguments :
  (forall fuel st args,
      as_index args = None ->
      _is_list_like args = false
      \/ (length (seq_items args) < 2)%nat \/ (3 < length (seq_items args))%nat ->
      resolve (S fuel) (op_node "$range" args) st = Raise InvalidRange)
  /\ (forall fuel st args,
        _is_list_like args = true ->
        (2 <= length (seq_items args) <= 3)%nat ->
        Exists (fun v => as_index v = None) (seq_items args) ->
        resolve (S fuel) (op_node "$range" args) st = Raise TypeError)
  /\ (forall fuel st start stop,
        resolve (S fuel) (op_node "$range" (VList [VInt start; VInt stop; VInt 0])) st
          = Raise ValueError).
Proof.
  split; [|split].
  - intros fuel st args Hidx Hshape. rewrite resolve_range_node.
    unfold _resolve_range. rewrite Hidx.
    destruct (_is_list_like args); [|reflexivity].
    destruct Hshape as [H|[H|H]]; [discriminate| |].
    + replace (2 <=? length (seq_items args))%nat with false
        by (symmetry; apply Nat.leb_gt; lia). reflexivity.
    + replace (length (seq_items args) <=? 3)%nat with false
        by (symmetry; apply Nat.leb_gt; lia).
      now rewrite andb_false_r.
  - intros fuel st args Hlike [H2 H3] Hex. rewrite resolve_range_node.
    unfold _resolve_range.
    assert (Hidx : as_index args = None) by (destruct args; try discriminate; reflexivity).
    rewrite Hidx, Hlike.
    replace (2 <=? length (seq_items args))%nat with true
      by (symmetry; apply Nat.leb_le; lia).
    replace (length (seq_items args) <=? 3)%nat with true
      by (symmetry; apply Nat.leb_le; lia).
    simpl andb. cbv iota.
    destruct (seq_items args) as [|a [|b [|c [|? ?]]]]; simpl in H2, H3; try lia.
    + simpl. inversion Hex as [? ? Ha|? ? Hex']; subst.
      * now rewrite Ha.
      * inversion Hex' as [? ? Hb|? ? Hex'']; subst; [|inversion Hex''].
        rewrite Hb. now destruct (as_index a).
    + simpl. inversion Hex as [? ? Ha|? ? Hex']; subst.
      * now rewrite Ha.
      * inversion Hex' as [? ? Hb|? ? Hex'']; subst.
        -- rewrite Hb. now destruct (as_index a).
        -- inversion Hex'' as [? ? Hc|? ? Hex3]; subst; [|inversion Hex3].
           rewrite Hc. now destruct (as_index a), (as_index b).
  - intros fuel st start stop. reflexivity.
Qed.

End RangeOperator.

(** ** References, the walker and the shape of arguments *)

Lemma mapM_raise_at {A B : Type} (f : A -> M B) l1 x l2 st r1 st1 e :
  mapM f l1 st = Ok (r1, st1) ->
  f x st1 = Raise e ->
  mapM f (l1 ++ x :: l2) st = Raise e.
Proof.
  revert st r1. induction l1 as [|y l1 IH]; intros st r1 H Hx; simpl in *.
  - unfold ret in H. injection H as _ <-. unfold bind. now rewrite Hx.
  - unfold bind in *. destruct (f y st) as [[y' sty]| |]; try discriminate.
    destruct (mapM f l1 sty) as [[ys stys]| |] eqn:E; try discriminate.
    unfold ret in H. injection H as _ <-.
    now rewrite (IH _ _ E Hx).
Qed.

Lemma mapM_entries_keys (rec : value -> M value) (d : entries) st items st' :
  mapM (fun kv => r <- rec (snd kv) ;; ret (fst kv, r)) d st = Ok (items, st') ->
  dict_keys items = dict_keys d.
Proof.
  revert st items. induction d as [|[k v] d IH]; intros st items H; simpl in *.
  - unfold ret in H. now injection H as <- _.
  - unfold bind in H. destruct (rec v st) as [[r st1]| |]; try discriminate.
    unfold ret in H at 1.
    destruct (mapM _ d st1) as [[rest st2]| |] eqn:E; try discriminate.
    unfold ret in H. injection H as <- <-. simpl. f_equal. eauto.
Qed.

Section WalkerAndReferences.

Variable py_int : string -> option Z.
Variable py_float : string -> option float.

Abbreviation resolve := (_resolve py_int py_float).

(** X4. What [$ref] rejects.  An argument that is not a string fails the
    assertion.  A key that the toplevel mapping does not have raises
    [KeyError] with that key.  When the template is not a mapping (a list
    of nodes, say) every reference raises [TypeError]. *)
Theorem ref_invalid_arguments :
  (forall fuel st key,
      (forall s, key <> VStr s) ->
      resolve (S fuel) (op_node "$ref" key) st = Raise AssertionError)
  /\ (forall fuel st tl key,
        toplevel st = VDict tl ->
        dict_get tl key = None ->
        uncached st key ->
        key ∉ resolving st ->
        resolve (S fuel) (ref_node key) st = Raise (KeyError key))
  /\ (forall fuel st key,
        (forall tl, toplevel st <> VDict tl) ->
        uncached st key ->
        key ∉ resolving st ->
        resolve (S fuel) (ref_node key) st = Raise TypeError).
Proof.
  split; [|split].
  - intros fuel st key Hkey.
    change (resolve (S fuel) (op_node "$ref" key) st)
      with (_resolve_ref (resolve fuel) key st).
    destruct key; try reflexivity. now elim (Hkey s).
  - intros fuel st tl key Htl Hget Hu Hr.
    change (resolve (S fuel) (ref_node key) st)
      with (_resolve_ref (resolve fuel) (VStr key) st).
    unfold _resolve_ref, uncached in *. cbv [bind get_state modify].
    rewrite Hu. destruct (decide (key ∈ resolving st)); [contradiction|].
    simpl toplevel. rewrite Htl. unfold toplevel_getitem, lift.
    now rewrite Hget.
  - intros fuel st key Htl Hu Hr.
    change (resolve (S fuel) (ref_node key) st)
      with (_resolve_ref (resolve fuel) (VStr key) st).
    unfold _resolve_ref, uncached in *. cbv [bind get_state modify].
    rewrite Hu. destruct (decide (key ∈ resolving st)); [contradiction|].
    simpl toplevel. unfold toplevel_getitem.
    destruct (toplevel st) as [| | | | | | |d]; try reflexivity.
    now elim (Htl d).
Qed.

(** X5. A first reference to a key whose toplevel entry has no operator
    node returns that entry (tuples turned into lists by the walker, so the
    entry itself when it has none), stores it in the cache under the key,
    records one resolution of the key and leaves the resolving set as it
    was. *)
Theorem ref_to_plain_entry :
  forall fuel st tl key entry,
    toplevel st = VDict tl ->
    dict_get tl key = Some entry ->
    uncached st key ->
    key ∉ resolving st ->
    operator_free entry = true ->
    wf_value entry = true ->
    (depth entry <= fuel)%nat ->
    exists st',
      resolve (S fuel) (ref_node key) st = Ok (listify entry, st')
      /\ computed st' !! key = Some (listify entry)
      /\ (forall k, k <> key -> computed st' !! k = computed st !! k)
      /\ resolving st' = resolving st
      /\ trace st' = trace st ++ [key]
      /\ (tuple_free entry = true -> listify entry = entry).
Proof.
  intros fuel st tl key entry Htl Hget Hu Hr Hop Hwf Hd.
  exists (leave key (listify entry) (enter key st)).
  split; [|split; [|split; [|split; [|split]]]].
  - change (resolve (S fuel) (ref_node key) st)
      with (_resolve_ref (resolve fuel) (VStr key) st).
    rewrite (resolve_ref_miss _ _ _ entry Hu Hr)
      by (rewrite Htl; now apply toplevel_getitem_dict).
    rewrite (walker_listifies py_int py_float fuel entry _ Hop Hwf Hd).
    destruct (decide (key ∈ resolving (enter key st))) as [|Hn]; [reflexivity|].
    elim Hn. simpl. set_solver.
  - simpl. apply lookup_insert_eq.
  - intros k Hk. simpl. now rewrite lookup_insert_ne.
  - simpl. set_solver.
  - reflexivity.
  - apply listify_tuple_free.
Qed.

(** X6. The shape of what the walker returns.  A scalar is returned as it
    is.  A list or a tuple comes back as a list of the same length.  A
    mapping that is not an operator node comes back as a mapping with the
    same keys in the same order; a mapping with no key or with more than
    one key is never an operator node, whatever its keys. *)
Theorem walker_shape :
  (forall fuel st v,
      match v with VList _ | VTuple _ | VDict _ => False | _ => True end ->
      resolve (S fuel) v st = Ok (v, st))
  /\ (forall fuel st l v st',
        resolve (S fuel) (VList l) st = Ok (v, st')
        \/ resolve (S fuel) (VTuple l) st = Ok (v, st') ->
        exists r, v = VList r /\ length r = length l)
  /\ (forall fuel st d v st',
        operator_node (VDict d) = None ->
        NoDup (dict_keys d) ->
        resolve (S fuel) (VDict d) st = Ok (v, st') ->
        exists d', v = VDict d' /\ dict_keys d' = dict_keys d)
  /\ (forall d, length d <> 1%nat -> operator_node (VDict d) = None).
Proof.
  split; [|split; [|split]].
  - intros fuel st v Hv. destruct v; try contradiction; reflexivity.
  - intros fuel st l v st' H.
    assert (Hm : exists r, mapM (resolve fuel) l st = Ok (r, st') /\ v = VList r).
    { destruct H as [H|H];
        change (_resolve py_int py_float (S fuel) ?x st)
          with (bind (mapM (resolve fuel) l) (fun r => ret (VList r)) st) in H;
        unfold bind in H;
        destruct (mapM (resolve fuel) l st) as [[r st1]| |]; try discriminate;
        unfold ret in H; injection H as <- <-; now exists r. }
    destruct Hm as (r & Hm & ->). exists r. split; [reflexivity|].
    eapply mapM_length, Hm.
  - intros fuel st d v st' Hop Hnd H. simpl in H. unfold _resolve_body in H.
    rewrite Hop in H. unfold bind in H.
    destruct (mapM _ d st) as [[items st1]| |] eqn:E; try discriminate.
    unfold ret in H. injection H as <- <-.
    pose proof (mapM_entries_keys _ _ _ _ _ E) as Hk.
    exists (dict_of_items items). split; [reflexivity|].
    rewrite dict_of_items_distinct; [exact Hk|]. now rewrite Hk.
  - intros [|[k v] [|? ?]] H; try reflexivity. now elim H.
Qed.

(** X7. No partial result: when the elements of a list or tuple before
    some element resolve and that element raises, the walker raises the
    same exception, whatever follows the element. *)
Theorem first_error_propagates :
  forall fuel st l1 x l2 r1 st1 e,
    mapM (resolve fuel) l1 st = Ok (r1, st1) ->
    resolve fuel x st1 = Raise e ->
    resolve (S fuel) (VList (l1 ++ x :: l2)) st = Raise e
    /\ resolve (S fuel) (VTuple (l1 ++ x :: l2)) st = Raise e.
Proof.
  intros fuel st l1 x l2 r1 st1 e Hl1 Hx.
  pose proof (mapM_raise_at _ _ _ l2 _ _ _ _ Hl1 Hx) as Hraise.
  split.
  - change (resolve (S fuel) (VList (l1 ++ x :: l2)) st)
      with (bind (mapM (resolve fuel) (l1 ++ x :: l2))
              (fun r => ret (VList r)) st).
    unfold bind. now rewrite Hraise.
  - change (resolve (S fuel) (VTuple (l1 ++ x :: l2)) st)
      with (bind (mapM (resolve fuel) (l1 ++ x :: l2))
              (fun r => ret (VList r)) st).
    unfold bind. now rewrite Hraise.
Qed.

(** X8. [$+] and [$zip] take their argument as written: when it is not a
    list or a tuple the assertion fails, also when it is an operator node
    (a reference to a list of lists, say) that would resolve to one. *)
Theorem concat_zip_argument_as_written :
  forall fuel st args,
    _is_list_like args = false ->
    resolve (S fuel) (op_node "$+" args) st = Raise AssertionError
    /\ resolve (S fuel) (op_node "$zip" args) st = Raise AssertionError.
Proof.
  intros fuel st args Hargs. split.
  - change (resolve (S fuel) (op_node "$+" args) st)
      with (_resolve_concat (resolve fuel) args st).
    unfold _resolve_concat, _map_list_like. rewrite Hargs.
    now destruct (isinstance args TIterable).
  - change (resolve (S fuel) (op_node "$zip" args) st)
      with (_resolve_zip (resolve fuel) args st).
    unfold _resolve_zip. now rewrite Hargs.
Qed.

End WalkerAndReferences.

(** ** Product over a sequence *)

Lemma itertools_product_empty_factor {A : Type} (factors : list (list A)) :
  Exists (fun l => l = []) factors -> itertools_product factors = [].
Proof.
  induction 1 as [l rest ->|l rest _ IH]; simpl; [reflexivity|].
  rewrite IH. induction l as [|x l IHl]; [reflexivity|exact IHl].
Qed.

Section ProductOverSequence.

Variable py_int : string -> option Z.
Variable py_float : string -> option float.

Abbreviation resolve := (_resolve py_int py_float).

Lemma resolve_product_node fuel args st :
  resolve (S fuel) (op_node "$product" args) st
    = _resolve_product (resolve fuel) args st.
Proof. reflexivity. Qed.

(** X9. [$product] over a sequence.  The argument is resolved first; when
    the result is a list or tuple, its elements are resolved once more, and
    when these are all lists or all tuples the output is the list of tuples
    of their cartesian product: as many tuples as the product of the
    lengths, a tuple taking one element of every factor in order, and no
    tuple at all as soon as one factor is empty.  Factors that mix lists
    and tuples, or hold something else, fail the assertion. *)
Theorem product_over_sequence :
  forall fuel args st a st1 items st2,
    resolve fuel args st = Ok (a, st1) ->
    _is_list_like a = true ->
    mapM (resolve fuel) (seq_items a) st1 = Ok (items, st2) ->
    (same_sequence_kind items = true ->
     resolve (S fuel) (op_node "$product" args) st
       = Ok (VList (map VTuple (itertools_product (map seq_items items))), st2)
     /\ length (itertools_product (map seq_items items))
        = fold_right (fun l n => (length l * n)%nat) 1%nat (map seq_items items)
     /\ (forall row,
           row ∈ itertools_product (map seq_items items)
           <-> Forall2 (fun x l => x ∈ l) row (map seq_items items))
     /\ (Exists (fun v => seq_items v = []) items ->
         itertools_product (map seq_items items) = []))
    /\ (same_sequence_kind items = false ->
        resolve (S fuel) (op_node "$product" args) st = Raise AssertionError).
Proof.
  intros fuel args st a st1 items st2 Hargs Hlike Hitems.
  assert (E : resolve (S fuel) (op_node "$product" args) st =
              if same_sequence_kind items
              then Ok (VList (map VTuple (itertools_product (map seq_items items))),
                       st2)
              else Raise AssertionError).
  { rewrite resolve_product_node. unfold _resolve_product.
    unfold bind at 1. rewrite Hargs, Hlike. unfold _map_list_like.
    rewrite Hlike. cbv [bind assert ret]. rewrite Hitems.
    rewrite (seq_items_same_kind _ _ Hlike).
    fold (same_sequence_kind items). now destruct (same_sequence_kind items). }
  split; intros Hkind; rewrite E, Hkind; [|reflexivity].
  split; [reflexivity|]. split; [apply itertools_product_length|].
  split; [apply itertools_product_elem|].
  intros Hex. apply itertools_product_empty_factor.
  apply Exists_exists in Hex as (v & Hv & Hempty).
  apply Exists_exists. exists (seq_items v). split; [|exact Hempty].
  apply list_elem_of_fmap. now exists v.
Qed.

(** X10. [$product] of an argument that resolves to a scalar (null, a
    boolean, a number or a string) raises the invalid-argument exception,
    and an exception raised while resolving the argument is the
    operator's. *)
Theorem product_invalid_argument :
  (forall fuel args st a st1,
      resolve fuel args st = Ok (a, st1) ->
      match a with VList _ | VTuple _ | VDict _ => False | _ => True end ->
      resolve (S fuel) (op_node "$product" args) st = Raise InvalidProduct)
  /\ (forall fuel args st e,
        resolve fuel args st = Raise e ->
        resolve (S fuel) (op_node "$product" args) st = Raise e).
Proof.
  split.
  - intros fuel args st a st1 Hargs Ha. rewrite resolve_product_node.
    unfold _resolve_product. unfold bind at 1. rewrite Hargs.
    destruct a; try contradiction; reflexivity.
  - intros fuel args st e Hargs. rewrite resolve_product_node.
    unfold _resolve_product. unfold bind at 1. now rewrite Hargs.
Qed.

End ProductOverSequence.

(** ** More on the environment operator *)

Section EnvEdges.

Variable py_int : string -> option Z.
Variable py_float : string -> option float.

Abbreviation resolve_env := (_resolve_env py_int py_float).

(** X11. What [$env] rejects or tolerates in its argument.  An argument
    that is neither a string nor a mapping raises the invalid-parameter
    exception.  A mapping without [name] raises [KeyError], before its
    [type] is looked at.  A [type] that is not a string raises the
    unknown-type exception when it is hashable and [TypeError] when it is
    not.  A [name] that is hashable but not a string is never found in the
    environment: the default is returned when there is one and the lookup
    fails otherwise. *)
Theorem env_invalid_arguments :
  (forall st args,
      match args with VStr _ | VDict _ => False | _ => True end ->
      resolve_env args st = Raise InvalidEnvParameter)
  /\ (forall st d,
        dict_get d "name" = None ->
        resolve_env (VDict d) st = Raise (KeyError "name"))
  /\ (forall st d key,
        dict_get d "name" = Some key ->
        (forall s, env_type d <> VStr s) ->
        resolve_env (VDict d) st
          = if hashable (env_type d) then Raise (UnknownType (env_type d))
            else Raise TypeError)
  /\ (forall st d key ty c,
        dict_get d "name" = Some key ->
        (forall s, key <> VStr s) ->
        hashable key = true ->
        env_type d = VStr ty ->
        ENV_CONSTRUCTORS ty = Some c ->
        resolve_env (VDict d) st
          = if is_None (env_default d) then Raise (EnvKeyNotFound key)
            else Ok (env_default d, st)).
Proof.
  split; [|split; [|split]].
  - intros st args Hargs. destruct args; try contradiction; reflexivity.
  - intros st d Hname. unfold _resolve_env.
    unfold bind at 1. unfold bind at 1. now rewrite Hname.
  - intros st d key Hname Hty. unfold _resolve_env, env_type in *.
    unfold bind at 1. unfold bind at 1. rewrite Hname. cbn [lift ret].
    destruct (default (VStr "str") (dict_get d "type")) as [| | | |s| | |];
      try reflexivity; try (now destruct (hashable (VTuple items))).
    now elim (Hty s).
  - intros st d key ty c Hname Hkey Hhash Hty Hc.
    unfold _resolve_env, env_type, env_default in *.
    unfold bind at 1. unfold bind at 1. rewrite Hname. cbn [lift ret].
    rewrite Hty, Hc. cbv [ret bind environment_get get_state].
    destruct key as [| | | |s| | |]; try discriminate;
      try (now destruct (default VNone (dict_get d "default")));
      try (now elim (Hkey s)).
    rewrite Hhash. now destruct (default VNone (dict_get d "default")).
Qed.

(** X12. Conversions of a variable that is present.  With [type: bool] the
    result is the truthiness of the raw string: true for every non-empty
    value, ["0"] and ["false"] included.  With [type: str], or without
    [type], it is the raw string.  With [type: int] or [type: float] it is
    what the builtin makes of the string, and when the builtin rejects the
    string the operator raises [ValueError]: the default is not a fallback
    for a malformed value. *)
Theorem env_conversions :
  forall st d name raw,
    dict_get d "name" = Some (VStr name) ->
    environment st !! name = Some raw ->
    (env_type d = VStr "bool" ->
     resolve_env (VDict d) st = Ok (VBool (negb (String.eqb raw "")), st))
    /\ (env_type d = VStr "str" ->
        resolve_env (VDict d) st = Ok (VStr raw, st))
    /\ (env_type d = VStr "int" ->
        resolve_env (VDict d) st
          = match py_int raw with
            | Some n => Ok (VInt n, st)
            | None => Raise ValueError
            end)
    /\ (env_type d = VStr "float" ->
        resolve_env (VDict d) st
          = match py_float raw with
            | Some f => Ok (VFloat f, st)
            | None => Raise ValueError
            end).
Proof.
  intros st d name raw Hname Hraw.
  split; [|split; [|split]]; intros Hty.
  - rewrite (resolve_env_dict py_int py_float d name "bool" CBool st Hname Hty eq_refl).
    now rewrite Hraw.
  - rewrite (resolve_env_dict py_int py_float d name "str" CStr st Hname Hty eq_refl).
    now rewrite Hraw.
  - rewrite (resolve_env_dict py_int py_float d name "int" CInt st Hname Hty eq_refl).
    rewrite Hraw. unfold construct, bind, lift. now destruct (py_int raw).
  - rewrite (resolve_env_dict py_int py_float d name "float" CFloat st Hname Hty eq_refl).
    rewrite Hraw. unfold construct, bind, lift. now destruct (py_float raw).
Qed.

Lemma construct_pure c raw st1 st2 :
  construct py_int py_float c raw st1
    = match construct py_int py_float c raw st2 with
      | Ok (v, _) => Ok (v, st1)
      | Raise e => Raise e
      | OutOfFuel => OutOfFuel
      end.
Proof.
  destruct c; simpl; try reflexivity; unfold bind, lift.
  - now destruct (py_int raw).
  - now destruct (py_float raw).
Qed.

(** X13. [$env] only reads the environment: run in two states that hold
    the same environment it gives the same value or the same exception,
    whatever the cache, the resolving set and the toplevel mapping are, and
    it returns in the state in which it was called. *)
Theorem env_reads_only_environment :
  forall args st1 st2,
    environment st1 = environment st2 ->
    _resolve_env py_int py_float args st1
      = match _resolve_env py_int py_float args st2 with
        | Ok (v, _) => Ok (v, st1)
        | Raise e => Raise e
        | OutOfFuel => OutOfFuel
        end.
Proof.
  intros args st1 st2 Henv.
  assert (Hget : forall key dflt c,
             bind (environment_get key)
               (fun found =>
                  match found with
                  | None => if negb (is_None dflt) then ret dflt
                            else raise (EnvKeyNotFound key)
                  | Some raw => construct py_int py_float c raw
                  end) st1
             = match bind (environment_get key)
                       (fun found =>
                          match found with
                          | None => if negb (is_None dflt) then ret dflt
                                    else raise (EnvKeyNotFound key)
                          | Some raw => construct py_int py_float c raw
                          end) st2 with
               | Ok (v, _) => Ok (v, st1)
               | Raise e => Raise e
               | OutOfFuel => OutOfFuel
               end).
  { intros key dflt c. unfold environment_get.
    destruct key as [| | | |s| | |];
      try (cbv [bind ret raise]; now destruct (negb (is_None dflt)));
      try (unfold bind; destruct (hashable _); [|reflexivity];
           cbv [ret raise]; now destruct (negb (is_None dflt))).
    cbv [bind get_state ret]. rewrite Henv.
    destruct (environment st2 !! s) as [raw|].
    - apply construct_pure.
    - cbv [raise]. now destruct (negb (is_None dflt)). }
  destruct args as [| | | |s| | |d]; try reflexivity.
  - unfold _resolve_env. unfold bind at 1. cbn [ret].
    rewrite Hget. unfold bind at 2. cbn [ret]. reflexivity.
  - unfold _resolve_env. unfold bind at 1. unfold bind at 3.
    unfold bind at 1. unfold bind at 2.
    destruct (dict_get d "name") as [key|]; [|reflexivity]. cbn [lift ret].
    destruct (default (VStr "str") (dict_get d "type")) as [| | | |ty| | |];
      try reflexivity; try (now destruct (hashable _)).
    destruct (ENV_CONSTRUCTORS ty) as [c|]; [|reflexivity]. cbn [ret].
    apply Hget.
Qed.

End EnvEdges.

(** ** More on merging *)

Lemma dict_get_elem (d : entries) k v :
  NoDup (dict_keys d) -> (k, v) ∈ d -> dict_get d k = Some v.
Proof.
  induction d as [|[k0 v0] d IH]; simpl; intros Hnd Hin; [inversion Hin|].
  apply NoDup_cons in Hnd as [Hk0 Hnd].
  apply elem_of_cons in Hin as [Heq|Hin].
  - injection Heq as -> ->. now rewrite String.eqb_refl.
  - destruct (String.eqb_spec k0 k) as [->|_]; [|now apply IH].
    elim Hk0. apply list_elem_of_fmap. now exists (k, v).
Qed.

Lemma dict_set_same k v d : dict_get d k = Some v -> dict_set k v d = d.
Proof.
  induction d as [|[k0 v0] d IH]; simpl; [discriminate|].
  destruct (String.eqb_spec k0 k) as [->|_].
  - intros H. now injection H as ->.
  - intros H. now rewrite IH.
Qed.

Lemma dict_update_same o : forall b,
  (forall k v, (k, v) ∈ o -> dict_get b k = Some v) -> dict_update b o = b.
Proof.
  unfold dict_update. induction o as [|[k v] o IH]; intros b H; simpl;
    [reflexivity|].
  rewrite dict_set_same by (apply H; left). apply IH.
  intros k' v' Hin. apply H. now right.
Qed.

Lemma dict_update_get_last o : forall b k v,
  NoDup (dict_keys o) -> dict_get o k = Some v ->
  dict_get (dict_update b o) k = Some v.
Proof.
  induction o as [|[k0 v0] o IH]; intros b k v Hnd Hget; simpl in *;
    [discriminate|].
  apply NoDup_cons in Hnd as [Hk0 Hnd].
  destruct (String.eqb_spec k0 k) as [->|Hne].
  - injection Hget as ->.
    change (dict_get (dict_update (dict_set k v b) o) k = Some v).
    rewrite dict_update_get_other by exact Hk0.
    now rewrite dict_get_set, String.eqb_refl.
  - now apply (IH (dict_set k0 v0 b)).
Qed.

Lemma dict_keys_set k v d :
  dict_keys (dict_set k v d)
    = if decide (k ∈ dict_keys d) then dict_keys d else dict_keys d ++ [k].
Proof.
  induction d as [|[k0 v0] d IH]; simpl.
  - destruct (decide (k ∈ [])) as [H|_]; [inversion H|reflexivity].
  - destruct (String.eqb_spec k0 k) as [->|Hne]; simpl.
    + destruct (decide (k ∈ k :: dict_keys d)) as [_|H]; [reflexivity|].
      elim H. left.
    + rewrite IH. destruct (decide (k ∈ dict_keys d)) as [Hin|Hnin].
      * destruct (decide (k ∈ k0 :: dict_keys d)) as [_|H]; [reflexivity|].
        elim H. now right.
      * destruct (decide (k ∈ k0 :: dict_keys d)) as [H|_]; [|reflexivity].
        apply elem_of_cons in H as [->|H]; [congruence|contradiction].
Qed.

(** An update keeps the keys of the base where they are, appends the new
    ones, and keeps the keys distinct. *)
Lemma dict_update_keys_order o : forall b,
  exists added,
    dict_keys (dict_update b o) = dict_keys b ++ added
    /\ (forall k, k ∈ added -> (k ∉ dict_keys b) /\ k ∈ dict_keys o)
    /\ (NoDup (dict_keys b) -> NoDup (dict_keys (dict_update b o))).
Proof.
  unfold dict_update. induction o as [|[k v] o IH]; intros b; simpl.
  - exists []. rewrite app_nil_r. split; [reflexivity|].
    split; [intros k H; inversion H|auto].
  - destruct (IH (dict_set k v b)) as (added & Hkeys & Hadded & Hnd).
    rewrite dict_keys_set in Hkeys, Hadded, Hnd.
    destruct (decide (k ∈ dict_keys b)) as [Hin|Hnin].
    + exists added. split; [exact Hkeys|]. split; [|exact Hnd].
      intros k' Hk'. destruct (Hadded k' Hk') as [H1 H2].
      split; [exact H1|now right].
    + exists (k :: added). rewrite <- app_assoc in Hkeys.
      split; [exact Hkeys|]. split.
      * intros k' Hk'. apply elem_of_cons in Hk' as [->|Hk'].
        -- split; [exact Hnin|left].
        -- destruct (Hadded k' Hk') as [H1 H2]. split; [|now right].
           intros Hb. apply H1. apply elem_of_app. now left.
      * intros Hb. apply Hnd. apply NoDup_app. split; [exact Hb|].
        split; [|apply NoDup_singleton].
        intros x Hx Hx'. apply list_elem_of_singleton in Hx' as ->.
        contradiction.
Qed.

Lemma fold_update_keys_order ds : forall d0,
  exists added,
    dict_keys (fold_left dict_update ds d0) = dict_keys d0 ++ added
    /\ (forall k, k ∈ added ->
          (k ∉ dict_keys d0) /\ exists d, d ∈ ds /\ k ∈ dict_keys d)
    /\ (NoDup (dict_keys d0) -> NoDup (dict_keys (fold_left dict_update ds d0))).
Proof.
  induction ds as [|d ds IH]; intros d0; simpl.
  - exists []. rewrite app_nil_r. split; [reflexivity|].
    split; [intros k H; inversion H|auto].
  - destruct (dict_update_keys_order d d0) as (a1 & K1 & A1 & N1).
    destruct (IH (dict_update d0 d)) as (a2 & K2 & A2 & N2).
    exists (a1 ++ a2).
    split; [now rewrite K2, K1, <- app_assoc|]. split; [|auto].
    intros k Hk. apply elem_of_app in Hk as [Hk|Hk].
    + destruct (A1 k Hk) as [H1 H2]. split; [exact H1|].
      exists d. split; [left|exact H2].
    + destruct (A2 k Hk) as [H1 (d' & Hd' & H2)]. split.
      * intros Hb. apply H1. rewrite K1. apply elem_of_app. now left.
      * exists d'. split; [now right|exact H2].
Qed.

Lemma fold_update_repeat base n : forall (h : gmap location entries) d,
  h !! base = Some d ->
  NoDup (dict_keys d) ->
  fold_left (fun h t => update_in_place base t h) (replicate n base) h = h.
Proof.
  induction n as [|n IH]; intros h d Hb Hnd; simpl; [reflexivity|].
  assert (E : update_in_place base base h = h).
  { unfold update_in_place. rewrite Hb.
    rewrite dict_update_same by (intros k v; now apply dict_get_elem).
    now apply insert_id. }
  rewrite E. now apply (IH h d).
Qed.

Section MergeEdges.

Variable py_int : string -> option Z.
Variable py_float : string -> option float.

Abbreviation merge := (merge_templates py_int py_float).

(** X14. The later template wins, and the merge is shallow.  When a key
    of some template maps to [v] there and no template after it has the
    key, the merged first template maps the key to exactly [v], whatever
    the earlier templates, the first included, held under that key. *)
Theorem merge_last_writer_wins :
  forall fuel base rest e os (h : gmap location entries) d0 ds ds1 d ds2 k v,
    h !! base = Some d0 ->
    Forall2 (fun l d => h !! l = Some d) rest ds ->
    base ∉ rest ->
    ds = ds1 ++ d :: ds2 ->
    NoDup (dict_keys d) ->
    dict_get d k = Some v ->
    (forall d', d' ∈ ds2 -> k ∉ dict_keys d') ->
    exists merged,
      snd (merge fuel (base :: rest) e os h) !! base = Some merged
      /\ dict_get merged k = Some v
      /\ fst (merge fuel (base :: rest) e os h)
         = build_template py_int py_float fuel (VDict merged) e os.
Proof.
  intros fuel base rest e os h d0 ds ds1 d ds2 k v Hb Hds Hnot -> Hnd Hget Hlater.
  pose proof (fold_update_base base rest h d0 _ Hb Hds Hnot) as Hbase.
  exists (fold_left dict_update (ds1 ++ d :: ds2) d0).
  unfold merge_templates. cbv zeta. rewrite Hbase. simpl.
  split; [exact Hbase|]. split; [|reflexivity].
  rewrite fold_left_app. simpl.
  rewrite fold_update_get_other by exact Hlater.
  now apply dict_update_get_last.
Qed.

(** X15. Key order after a merge.  The keys of the first template keep
    their positions, the keys that only later templates have are appended
    after them, and when the keys of the first template are distinct the
    keys of the merged template are distinct. *)
Theorem merge_key_order :
  forall fuel base rest e os (h : gmap location entries) d0 ds,
    h !! base = Some d0 ->
    Forall2 (fun l d => h !! l = Some d) rest ds ->
    base ∉ rest ->
    exists merged added,
      snd (merge fuel (base :: rest) e os h) !! base = Some merged
      /\ dict_keys merged = dict_keys d0 ++ added
      /\ (forall k, k ∈ added ->
            (k ∉ dict_keys d0) /\ exists d, d ∈ ds /\ k ∈ dict_keys d)
      /\ (NoDup (dict_keys d0) -> NoDup (dict_keys merged)).
Proof.
  intros fuel base rest e os h d0 ds Hb Hds Hnot.
  pose proof (fold_update_base base rest h d0 _ Hb Hds Hnot) as Hbase.
  destruct (fold_update_keys_order ds d0) as (added & K & A & N).
  exists (fold_left dict_update ds d0), added.
  split; [|split; [exact K|split; [exact A|exact N]]].
  unfold merge_templates. cbv zeta. now rewrite Hbase.
Qed.

(** X16. Degenerate merges.  An empty list of templates raises
    [IndexError] and leaves the store alone.  A single template, or a
    template followed by any number of references to the same object, is
    built as it is and the store is unchanged: updating a dictionary with
    itself changes nothing. *)
Theorem merge_degenerate :
  (forall fuel e os (h : gmap location entries),
      merge fuel [] e os h = (Raise IndexError, h))
  /\ (forall fuel base n e os (h : gmap location entries) d,
        h !! base = Some d ->
        NoDup (dict_keys d) ->
        merge fuel (base :: replicate n base) e os h
          = (build_template py_int py_float fuel (VDict d) e os, h)).
Proof.
  split; [reflexivity|].
  intros fuel base n e os h d Hb Hnd. unfold merge_templates. cbv zeta.
  rewrite (fold_update_repeat base n h d Hb Hnd). now rewrite Hb.
Qed.

End MergeEdges.

(** ** Bookkeeping of the cache *)

Lemma bookkeeping_refl st : bookkeeping st st.
Proof.
  unfold bookkeeping. split; [reflexivity|]. split; [auto|].
  split; [exists []; now rewrite app_nil_r|]. split; auto.
Qed.

Lemma bookkeeping_trans st1 st2 st3 :
  bookkeeping st1 st2 -> bookkeeping st2 st3 -> bookkeeping st1 st3.
Proof.
  intros (T12 & C12 & (s12 & L12) & N12 & R12) (T23 & C23 & (s23 & L23) & N23 & R23).
  unfold bookkeeping. split; [congruence|]. split; [auto|].
  split; [exists (s12 ++ s23); now rewrite L23, L12, <- app_assoc|].
  split.
  - intros k Hk. destruct (N23 k Hk) as [H|H]; [|now right].
    destruct (N12 k H) as [H'|H']; [now left|right].
    rewrite L23. apply elem_of_app. now left.
  - intros k Hk. destruct (R23 k Hk) as [H|[H1 H2]].
    + destruct (R12 k H) as [H'|[H1 H2]]; [now left|right].
      split; [now apply C23|exact H2].
    + right. split; [exact H1|]. unfold toplevel_keys in *. now rewrite <- T12.
Qed.

Lemma resolve_ref_miss_entry rec key st v st' :
  uncached st key ->
  _resolve_ref rec (VStr key) st = Ok (v, st') ->
  key ∈ toplevel_keys st
  /\ exists entry st2,
       rec entry (enter key st) = Ok (v, st2) /\ st' = leave key v st2.
Proof.
  intros Hu H. unfold _resolve_ref, uncached in *. cbv [bind get_state] in H.
  rewrite Hu in H.
  destruct (decide (key ∈ resolving st)) as [|Hr]; [discriminate|].
  cbv [modify] in H. simpl toplevel in H.
  destruct (toplevel_getitem (toplevel st) key _) as [[entry st1]| |] eqn:Hg;
    try discriminate.
  assert (Hkey : key ∈ toplevel_keys st).
  { unfold toplevel_keys, toplevel_getitem, lift in *.
    destruct (toplevel st) as [| | | | | | |d]; try discriminate.
    apply dict_get_keys. destruct (dict_get d key); [eauto|discriminate]. }
  split; [exact Hkey|].
  apply toplevel_getitem_pure in Hg as [-> _]. fold (enter key st) in H.
  destruct (rec entry (enter key st)) as [[v' st2]| |] eqn:Hrun; try discriminate.
  destruct (decide (key ∈ resolving st2)); [|discriminate].
  unfold ret in H. injection H as <- <-. now exists entry, st2.
Qed.

Lemma resolve_ref_bookkeeping rec key :
  (forall v, preserves bookkeeping (rec v)) ->
  preserves bookkeeping (_resolve_ref rec key).
Proof.
  intros Hrec st a st' H. destruct key; try discriminate.
  destruct (is_None (default VNone (computed st !! s))) eqn:Hu.
  2:{ rewrite resolve_ref_hit in H by exact Hu. injection H as _ <-.
      apply bookkeeping_refl. }
  apply (resolve_ref_miss_entry _ _ _ _ _ Hu) in H
    as (Hkey & entry & st2 & Hrun & ->).
  apply Hrec in Hrun. destruct Hrun as (T & C & (suffix & L) & N & R).
  simpl in T, C, L, N, R.
  unfold bookkeeping. simpl. split; [exact T|]. split; [|split; [|split]].
  - intros k Hk. destruct (decide (k = s)) as [->|Hne].
    + rewrite lookup_insert_eq. eauto.
    + rewrite lookup_insert_ne by congruence. now apply C.
  - exists ([s] ++ suffix). now rewrite L, <- app_assoc.
  - intros k Hk. destruct (decide (k = s)) as [->|Hne].
    + right. rewrite L. apply elem_of_app. left. apply elem_of_app. right. left.
    + rewrite lookup_insert_ne in Hk by congruence. now apply N.
  - intros k Hk. destruct (R k Hk) as [H|[H1 H2]].
    + apply elem_of_app in H as [H|H]; [now left|right].
      apply list_elem_of_singleton in H as ->.
      split; [rewrite lookup_insert_eq; eauto|exact Hkey].
    + right. split; [|exact H2].
      destruct (decide (k = s)) as [->|Hne].
      * rewrite lookup_insert_eq. eauto.
      * now rewrite lookup_insert_ne by congruence.
Qed.

Section CacheBookkeeping.

Variable py_int : string -> option Z.
Variable py_float : string -> option float.

Abbreviation resolve := (_resolve py_int py_float).

Lemma resolve_bookkeeping fuel v : preserves bookkeeping (resolve fuel v).
Proof.
  apply (resolve_preserves py_int py_float bookkeeping_refl bookkeeping_trans
           resolve_ref_bookkeeping).
Qed.

(** X17. The cache is only ever added to, and only by references.  Over
    any completed resolution no cache entry is lost and the trace of
    resolutions is extended.  When a build completes, the cached keys are
    exactly the keys that references resolved, each of them is a key of the
    template, which is then a mapping, and the resolving set is empty. *)
Theorem cache_bookkeeping :
  (forall fuel x st v st',
      resolve fuel x st = Ok (v, st') ->
      (forall k, is_Some (computed st !! k) -> is_Some (computed st' !! k))
      /\ exists suffix, trace st' = trace st ++ suffix)
  /\ (forall fuel template e os v st,
        run_template py_int py_float fuel template e os = Ok (v, st) ->
        (forall k, is_Some (computed st !! k) <-> k ∈ trace st)
        /\ (forall k, k ∈ trace st ->
              exists d, template = VDict d /\ k ∈ dict_keys d)
        /\ resolving st = ∅).
Proof.
  split.
  - intros fuel x st v st' H. apply resolve_bookkeeping in H.
    destruct H as (_ & C & L & _). now split.
  - intros fuel template e os v st H. unfold run_template in H.
    pose proof (resolve_bookkeeping _ _ _ _ _ H) as (_ & _ & _ & N & R).
    pose proof (resolve_frame py_int py_float _ _ _ _ _ H) as (_ & _ & Rs & _).
    simpl in N, R, Rs. split; [|split; [|exact Rs]].
    + intros k. split.
      * intros Hk. destruct (N k Hk) as [Hc|Ht]; [|exact Ht].
        rewrite lookup_empty in Hc. now destruct Hc.
      * intros Hk. destruct (R k Hk) as [Hn|[Hc _]]; [inversion Hn|exact Hc].
    + intros k Hk. destruct (R k Hk) as [Hn|[_ Hkeys]]; [inversion Hn|].
      unfold toplevel_keys in Hkeys. simpl in Hkeys.
      destruct template as [| | | | | | |d]; try (now inversion Hkeys).
      now exists d.
Qed.

End CacheBookkeeping.

(** ** Building twice *)

Lemma listify_tuple_free_result : forall v, tuple_free (listify v) = true.
Proof.
  fix IH 1. intros [| | | | |l|l|d]; try reflexivity; simpl.
  - induction l as [|x l IHl]; [reflexivity|]. simpl. now rewrite IH, IHl.
  - induction l as [|x l IHl]; [reflexivity|]. simpl. now rewrite IH, IHl.
  - induction d as [|[k x] d IHd]; [reflexivity|]. simpl. now rewrite IH, IHd.
Qed.

Lemma listify_depth : forall v, depth (listify v) = depth v.
Proof.
  fix IH 1. intros [| | | | |l|l|d]; try reflexivity; simpl; f_equal.
  - induction l as [|x l IHl]; [reflexivity|]. simpl. now rewrite IH, IHl.
  - induction l as [|x l IHl]; [reflexivity|]. simpl. now rewrite IH, IHl.
  - induction d as [|[k x] d IHd]; [reflexivity|]. simpl. now rewrite IH, IHd.
Qed.

Lemma listify_wf : forall v, wf_value v = true -> wf_value (listify v) = true.
Proof.
  fix IH 1. intros [| | | | |l|l|d] H; try reflexivity; simpl in *.
  - induction l as [|x l IHl]; [reflexivity|]. simpl in *.
    apply andb_true_iff in H as [Hx H]. now rewrite IH, IHl.
  - induction l as [|x l IHl]; [reflexivity|]. simpl in *.
    apply andb_true_iff in H as [Hx H]. now rewrite IH, IHl.
  - apply andb_true_iff in H as [Hnd H]. apply andb_true_iff. split.
    + unfold dict_keys in *. rewrite map_map. exact Hnd.
    + clear Hnd. induction d as [|[k x] d IHd]; [reflexivity|]. simpl in *.
      apply andb_true_iff in H as [Hx H]. now rewrite IH, IHd.
Qed.

Lemma operator_node_listify d :
  operator_node (VDict d) = None ->
  operator_node (VDict (map (fun kv => (fst kv, listify (snd kv))) d)) = None.
Proof.
  destruct d as [|[k x] [|? ?]]; try reflexivity. simpl.
  now destruct (OPS_SWITCH k).
Qed.

Lemma listify_operator_free :
  forall v, operator_free v = true -> operator_free (listify v) = true.
Proof.
  fix IH 1. intros [| | | | |l|l|d] H; try reflexivity.
  - simpl in *. induction l as [|x l IHl]; [reflexivity|]. simpl in *.
    apply andb_true_iff in H as [Hx H]. now rewrite IH, IHl.
  - simpl in *. induction l as [|x l IHl]; [reflexivity|]. simpl in *.
    apply andb_true_iff in H as [Hx H]. now rewrite IH, IHl.
  - pose proof (operator_free_node _ H) as Hn.
    pose proof (operator_free_entries _ H) as He.
    change (listify (VDict d))
      with (VDict (map (fun kv => (fst kv, listify (snd kv))) d)).
    change (operator_free (VDict (map (fun kv => (fst kv, listify (snd kv))) d)))
      with (match operator_node
                    (VDict (map (fun kv => (fst kv, listify (snd kv))) d)) with
            | Some _ => false
            | None => forallb (fun kv => operator_free (snd kv))
                        (map (fun kv => (fst kv, listify (snd kv))) d)
            end).
    rewrite (operator_node_listify _ Hn). clear H Hn.
    induction d as [|[k x] d IHd]; [reflexivity|]. simpl in *.
    apply andb_true_iff in He as [Hx He]. now rewrite IH, IHd.
Qed.

Section BuildingTwice.

Variable py_int : string -> option Z.
Variable py_float : string -> option float.

(** X18. Building is idempotent on templates without operator nodes.  The
    build of such a template succeeds whatever the environment, its result
    again has no operator node, and building that result, in any
    environment, returns it unchanged. *)
Theorem build_idempotent :
  forall fuel template e os,
    operator_free template = true ->
    wf_value template = true ->
    (depth template <= fuel)%nat ->
    exists result,
      build_template py_int py_float fuel template e os = Ok result
      /\ operator_free result = true
      /\ forall e' os',
           build_template py_int py_float fuel result e' os' = Ok result.
Proof.
  intros fuel template e os Hop Hwf Hd. exists (listify template).
  split; [|split].
  - unfold build_template, run_template.
    now rewrite (walker_listifies py_int py_float fuel template _ Hop Hwf Hd).
  - now apply listify_operator_free.
  - intros e' os'. unfold build_template, run_template.
    rewrite (walker_listifies py_int py_float fuel (listify template)).
    + now rewrite (listify_tuple_free _ (listify_tuple_free_result template)).
    + now apply listify_operator_free.
    + now apply listify_wf.
    + now rewrite listify_depth.
Qed.

End BuildingTwice.

(** ** A reference and the resolution of its entry *)

Section ReferenceUnfolds.

Variable py_int : string -> option Z.
Variable py_float : string -> option float.

Abbreviation resolve := (_resolve py_int py_float).

(** X19. A first reference to a key of the toplevel mapping ends as the
    resolution of the key's entry ends, run with the key in the resolving
    set: an exception of that resolution is the reference's exception, and
    when it returns a value the reference returns the same value, having
    removed the key from the resolving set (which never fails) and stored
    the value in the cache. *)
Theorem ref_unfolds_to_entry :
  forall fuel st tl key entry,
    toplevel st = VDict tl ->
    dict_get tl key = Some entry ->
    uncached st key ->
    key ∉ resolving st ->
    resolve (S fuel) (ref_node key) st
      = match resolve fuel entry (enter key st) with
        | Ok (v, st2) => Ok (v, leave key v st2)
        | Raise e => Raise e
        | OutOfFuel => OutOfFuel
        end
    /\ forall v st',
        resolve (S fuel) (ref_node key) st = Ok (v, st') ->
        computed st' !! key = Some v /\ resolving st' = resolving st.
Proof.
  intros fuel st tl key entry Htl Hget Hu Hr.
  assert (E : resolve (S fuel) (ref_node key) st
              = match resolve fuel entry (enter key st) with
                | Ok (v, st2) => Ok (v, leave key v st2)
                | Raise e => Raise e
                | OutOfFuel => OutOfFuel
                end).
  { change (resolve (S fuel) (ref_node key) st)
      with (_resolve_ref (resolve fuel) (VStr key) st).
    rewrite (resolve_ref_miss _ _ _ entry Hu Hr)
      by (rewrite Htl; now apply toplevel_getitem_dict).
    destruct (resolve fuel entry (enter key st)) as [[v st2]| |] eqn:Hrun;
      try reflexivity.
    apply resolve_frame in Hrun. destruct Hrun as (_ & _ & Rs & _).
    destruct (decide (key ∈ resolving st2)) as [|Hn]; [reflexivity|].
    elim Hn. rewrite Rs. simpl. set_solver. }
  split; [exact E|].
  intros v st' H. rewrite E in H.
  destruct (resolve fuel entry (enter key st)) as [[v2 st2]| |] eqn:Hrun;
    try discriminate.
  injection H as <- <-. apply resolve_frame in Hrun.
  destruct Hrun as (_ & _ & Rs & _). simpl in *. split.
  - apply lookup_insert_eq.
  - rewrite Rs. set_solver.
Qed.

End ReferenceUnfolds.

(** ** Instances of the further properties *)

Lemma range_half_open_witness :
  _resolve decimal_int no_float 1
    (op_node "$range" (VList [VInt 3; VInt 40; VInt 5])) (empty_state VNone)
  = Ok (VList (map VInt [3; 8; 13; 18; 23; 28; 33; 38]), empty_state VNone).
Proof.
  destruct (range_half_open decimal_int no_float 0 (empty_state VNone) 3 40 5)
    as [H _]; [discriminate|exact H].
Defined.

Lemma range_invalid_arguments_witness :
  _resolve decimal_int no_float 1
    (op_node "$range" (VList [ref_node "n"; VInt 5])) (empty_state VNone)
  = Raise TypeError.
Proof.
  destruct (range_invalid_arguments decimal_int no_float) as (_ & H & _).
  apply H.
  - reflexivity.
  - simpl. split; [apply le_n|apply le_S, le_n].
  - left. reflexivity.
Defined.

Lemma ref_invalid_arguments_witness :
  _resolve decimal_int no_float 1 (ref_node "missing") (empty_state plain_template)
  = Raise (KeyError "missing").
Proof.
  destruct (ref_invalid_arguments decimal_int no_float) as (_ & H & _).
  apply (H 0%nat (empty_state plain_template) [("a", VInt 1)] "missing").
  - reflexivity.
  - reflexivity.
  - reflexivity.
  - apply not_elem_of_empty.
Defined.

Lemma ref_to_plain_entry_witness :
  exists st',
    _resolve decimal_int no_float 2 (ref_node "a") (empty_state plain_template)
      = Ok (VInt 1, st')
    /\ computed st' !! "a" = Some (VInt 1).
Proof.
  destruct (ref_to_plain_entry decimal_int no_float 1
              (empty_state plain_template) [("a", VInt 1)] "a" (VInt 1))
    as (st' & H & Hc & _).
  - reflexivity.
  - reflexivity.
  - reflexivity.
  - apply not_elem_of_empty.
  - reflexivity.
  - reflexivity.
  - apply le_n.
  - exists st'. split; [exact H|exact Hc].
Defined.

Lemma walker_shape_witness :
  exists r, VList [VInt 1; VInt 2] = VList r /\ length r = 2%nat.
Proof.
  destruct (walker_shape decimal_int no_float) as (_ & H & _).
  apply (H 1%nat (empty_state VNone) [VInt 1; VInt 2] (VList [VInt 1; VInt 2])
           (empty_state VNone)).
  right. reflexivity.
Defined.

Lemma first_error_propagates_witness :
  _resolve decimal_int no_float 3
    (VList [VInt 1; ref_node "missing"; VInt 2]) (empty_state plain_template)
  = Raise (KeyError "missing").
Proof.
  destruct (first_error_propagates decimal_int no_float 2
              (empty_state plain_template) [VInt 1] (ref_node "missing") [VInt 2]
              [VInt 1] (empty_state plain_template) (KeyError "missing")
              eq_refl eq_refl) as [H _].
  exact H.
Defined.

Lemma concat_zip_argument_as_written_witness :
  _resolve decimal_int no_float 1 (op_node "$+" (ref_node "lists"))
    (empty_state VNone)
  = Raise AssertionError.
Proof.
  destruct (concat_zip_argument_as_written decimal_int no_float 0
              (empty_state VNone) (ref_node "lists") eq_refl) as [H _].
  exact H.
Defined.

Lemma product_over_sequence_witness :
  _resolve decimal_int no_float 4
    (op_node "$product" (VList [op_node "$range" (VInt 2); VList [VInt 3; VInt 4]]))
    (empty_state VNone)
  = Ok (VList [VTuple [VInt 0; VInt 3]; VTuple [VInt 0; VInt 4];
               VTuple [VInt 1; VInt 3]; VTuple [VInt 1; VInt 4]],
        empty_state VNone).
Proof.
  destruct (product_over_sequence decimal_int no_float 3
              (VList [op_node "$range" (VInt 2); VList [VInt 3; VInt 4]])
              (empty_state VNone)
              (VList [VList [VInt 0; VInt 1]; VList [VInt 3; VInt 4]])
              (empty_state VNone)
              [VList [VInt 0; VInt 1]; VList [VInt 3; VInt 4]]
              (empty_state VNone) eq_refl eq_refl eq_refl) as [H _].
  destruct (H eq_refl) as [E _]. exact E.
Defined.

Lemma product_invalid_argument_witness :
  _resolve decimal_int no_float 2 (op_node "$product" (VInt 5)) (empty_state VNone)
  = Raise InvalidProduct.
Proof.
  destruct (product_invalid_argument decimal_int no_float) as [H _].
  apply (H 1%nat (VInt 5) (empty_state VNone) (VInt 5) (empty_state VNone)).
  - reflexivity.
  - exact I.
Defined.

Lemma env_invalid_arguments_witness :
  _resolve_env decimal_int no_float (VDict [("type", VStr "int")]) (empty_state VNone)
  = Raise (KeyError "name").
Proof.
  destruct (env_invalid_arguments decimal_int no_float) as (_ & H & _).
  apply H. reflexivity.
Defined.

Lemma env_conversions_witness :
  _resolve_env decimal_int no_float
    (VDict [("name", VStr "FOO"); ("type", VStr "bool")]) false_state
  = Ok (VBool true, false_state).
Proof.
  destruct (env_conversions decimal_int no_float false_state
              [("name", VStr "FOO"); ("type", VStr "bool")] "FOO" "false"
              eq_refl eq_refl) as [H _].
  exact (H eq_refl).
Defined.

Lemma env_reads_only_environment_witness :
  _resolve_env decimal_int no_float (VStr "FOO") (foo_state VNone)
  = Ok (VStr "123", foo_state VNone).
Proof.
  rewrite (env_reads_only_environment decimal_int no_float (VStr "FOO")
             (foo_state VNone) (foo_state plain_template) eq_refl).
  reflexivity.
Defined.

Lemma merge_last_writer_wins_witness :
  exists merged,
    snd (merge_templates decimal_int no_float 3 [0%nat; 1%nat] None ∅ override_store)
      !! 0%nat = Some merged
    /\ dict_get merged "b" = Some (VInt 3).
Proof.
  destruct (merge_last_writer_wins decimal_int no_float 3 0%nat [1%nat] None ∅
              override_store [("a", VInt 1); ("b", VInt 2)]
              [[("b", VInt 3); ("c", VInt 4)]] []
              [("b", VInt 3); ("c", VInt 4)] [] "b" (VInt 3))
    as (merged & H & Hb & _).
  - reflexivity.
  - repeat constructor.
  - intros Hin. apply list_elem_of_singleton in Hin. discriminate.
  - reflexivity.
  - apply NoDup_cons. split; [|apply NoDup_singleton].
    intros Hin. apply list_elem_of_singleton in Hin. discriminate.
  - reflexivity.
  - intros d' Hd'. inversion Hd'.
  - exists merged. split; [exact H|exact Hb].
Defined.

Lemma merge_key_order_witness :
  exists merged added,
    snd (merge_templates decimal_int no_float 3 [0%nat; 1%nat] None ∅ override_store)
      !! 0%nat = Some merged
    /\ dict_keys merged = ["a"; "b"] ++ added.
Proof.
  destruct (merge_key_order decimal_int no_float 3 0%nat [1%nat] None ∅
              override_store [("a", VInt 1); ("b", VInt 2)]
              [[("b", VInt 3); ("c", VInt 4)]])
    as (merged & added & H & Hk & _).
  - reflexivity.
  - repeat constructor.
  - intros Hin. apply list_elem_of_singleton in Hin. discriminate.
  - exists merged, added. split; [exact H|exact Hk].
Defined.

Lemma merge_degenerate_witness :
  merge_templates decimal_int no_float 3 [0%nat; 0%nat] None ∅ override_store
  = (build_template decimal_int no_float 3
       (VDict [("a", VInt 1); ("b", VInt 2)]) None ∅,
     override_store).
Proof.
  destruct (merge_degenerate decimal_int no_float) as [_ H].
  apply (H 3%nat 0%nat 1%nat None ∅ override_store [("a", VInt 1); ("b", VInt 2)]).
  - reflexivity.
  - apply NoDup_cons. split; [|apply NoDup_singleton].
    intros Hin. apply list_elem_of_singleton in Hin. discriminate.
Defined.

Lemma cache_bookkeeping_witness :
  resolving
    (state_of (run_template decimal_int no_float 5 memo_template None ∅)
       (empty_state memo_template))
  = ∅.
Proof.
  destruct (cache_bookkeeping decimal_int no_float) as [_ H].
  destruct (H 5%nat memo_template None ∅
              (VDict [("a", VList [VInt 5; VInt 5]); ("b", VInt 5); ("c", VInt 5)])
              (state_of (run_template decimal_int no_float 5 memo_template None ∅)
                 (empty_state memo_template)))
    as (_ & _ & Hr).
  - vm_compute. reflexivity.
  - exact Hr.
Defined.

Lemma build_idempotent_witness :
  exists result,
    build_template decimal_int no_float 3 tuple_template None ∅ = Ok result
    /\ operator_free result = true.
Proof.
  destruct (build_idempotent decimal_int no_float 3 tuple_template None ∅)
    as (result & H & Hop & _).
  - reflexivity.
  - reflexivity.
  - apply le_n.
  - exists result. split; [exact H|exact Hop].
Defined.

Lemma ref_unfolds_to_entry_witness :
  _resolve decimal_int no_float 2 (ref_node "a") (empty_state plain_template)
  = Ok (VInt 1, leave "a" (VInt 1) (enter "a" (empty_state plain_template))).
Proof.
  destruct (ref_unfolds_to_entry decimal_int no_float 1
              (empty_state plain_template) [("a", VInt 1)] "a" (VInt 1))
    as [H _].
  - reflexivity.
  - reflexivity.
  - reflexivity.
  - apply not_elem_of_empty.
  - rewrite H. reflexivity.
Defined.
